(** * Mission assembly and state linking of the turbofan flight-profile models

    A shallow embedding of the constraint-generating code of

    - [engine_flight_profile_integration.py]  (climb + cruise), module [Simple];
    - [TASOPT_flight_profile_2_climb_segs.py] (climb + climb + cruise-climb),
      module [TwoClimb].

    Both files build a list of gpkit constraints.  The embedding keeps the
    constraints as syntax (so that one can ask which constraints are in the
    assembled set) and gives them a meaning over rational valuations (so that
    one can ask what every feasible assignment satisfies). *)

From Stdlib Require Import String List ZArith QArith Lia Lqa Bool Arith.
Import ListNotations.
Close Scope Q_scope.

Set Implicit Arguments.

(** ** Python results: a value or a raised exception *)

Inductive pyerr : Type := IndexError | ValueError | TypeError.

Definition res (A : Type) : Type := (pyerr + A)%type.

Definition ret {A} (a : A) : res A := inr a.
Definition raise {A} (e : pyerr) : res A := inl e.
Definition bind {A B} (m : res A) (k : A -> res B) : res B :=
  match m with
  | inl e => inl e
  | inr a => k a
  end.

Notation "x <- m ;; k" := (bind m (fun x => k))
  (at level 61, m at next level, right associativity).

(** ** Variables, expressions, constraints *)

(** The models whose variables the two files mention.  A gpkit variable is
    identified by its name, the model it was created in and, inside a
    [Vectorize] block, its position. *)
Inductive model : Type :=
  | Mission | ac | ac_engine | ac_engine_engineP | enginestate
  | climb | climb_state | climb1 | climb1_state | climb2 | climb2_state
  | cruise | cruise_state | cruise_cruiseP.

Inductive var : Type :=
  | VarKey (m : model) (name : string) (idx : option nat).

Inductive expr : Type :=
  | Var (v : var)
  | Num (q : Q)                      (* a plain Python number          *)
  | Qty (q : Q) (u : string)         (* q * units(u)                   *)
  | Add (a b : expr)
  | Sub (a b : expr)
  | Mul (a b : expr)
  | Div (a b : expr).

Inductive rel : Type :=
  | EQ       (* a == b                     *)
  | LE       (* a <= b                     *)
  | GE       (* a >= b                     *)
  | SIGEQ.   (* SignomialEquality(a, b)    *)

(** [tight] records that the constraint was wrapped in [TCS([...])]. *)
Record constraint : Type := Constraint {
  tight : bool;
  lhs : expr;
  op : rel;
  rhs : expr
}.

Definition mk (r : rel) (a b : expr) : constraint := Constraint false a r b.

Definition set_tight (c : constraint) : constraint :=
  Constraint true (lhs c) (op c) (rhs c).

(** ** Scalars and arrays *)

Inductive pyval : Type :=
  | Sc (e : expr)
  | Vec (l : list expr).

(** A model object: where it was created and, when it was created inside
    [with Vectorize(n)], the length of its variables. *)
Record pymodel : Type := PyModel {
  lineage : model;
  vectorization : option nat
}.

(** The array [g 0, ..., g (n-1)]. *)
Definition tab {T} (n : nat) (g : nat -> T) : list T := map g (seq 0 n).

(** Element [i] of the vectorized variable [key] of model [m]. *)
Definition elem (m : model) (key : string) (i : nat) : expr :=
  Var (VarKey m key (Some i)).

Definition vec (m : model) (key : string) (n : nat) : list expr :=
  tab n (elem m key).

(** [with Vectorize(n): obj = SomeModel(...)].  gpkit cannot create the
    variables of a model inside [Vectorize(0)]: building the model raises
    [ValueError].  A vectorized model therefore never has length zero. *)
Definition Vectorize (n : nat) (m : model) : res pymodel :=
  match n with
  | 0 => raise ValueError
  | S _ => ret (PyModel m (Some n))
  end.

(** [obj[key]]: a scalar variable, or the array of the [n] variables of a
    model built by [Vectorize n]. *)
Definition getitem (obj : pymodel) (key : string) : res pyval :=
  match vectorization obj with
  | None => ret (Sc (Var (VarKey (lineage obj) key None)))
  | Some n => ret (Vec (vec (lineage obj) key n))
  end.

(** [Variable(name, units, description)] declared in [Mission.setup]. *)
Definition Variable_ (name : string) : res pyval :=
  ret (Sc (Var (VarKey Mission name None))).

(** [a[i]] for a Python integer [i]; negative indices count from the end. *)
Definition index_list (l : list expr) (i : Z) : res expr :=
  let n := Z.of_nat (List.length l) in
  let j := if (i <? 0)%Z then (i + n)%Z else i in
  if ((0 <=? j) && (j <? n))%Z then
    match nth_error l (Z.to_nat j) with
    | Some e => ret e
    | None => raise IndexError
    end
  else raise IndexError.

Definition idx (a : res pyval) (i : Z) : res pyval :=
  v <- a ;;
  match v with
  | Sc _ => raise TypeError
  | Vec l => e <- index_list l i ;; ret (Sc e)
  end.

(** A slice bound is clamped to the array as Python does. *)
Definition clamp (n b : Z) : Z :=
  if (b <? 0)%Z then Z.max 0 (b + n) else Z.min b n.

Definition slice_list (l : list expr) (lo hi : option Z) : list expr :=
  let n := Z.of_nat (List.length l) in
  let a := match lo with None => 0%Z | Some b => clamp n b end in
  let b := match hi with None => n | Some b => clamp n b end in
  firstn (Z.to_nat (b - a)) (skipn (Z.to_nat a) l).

(** [a[lo:hi]] *)
Definition slice (a : res pyval) (lo hi : option Z) : res pyval :=
  v <- a ;;
  match v with
  | Sc _ => raise TypeError
  | Vec l => ret (Vec (slice_list l lo hi))
  end.

Fixpoint zipWith {T} (f : expr -> expr -> T) (l1 l2 : list expr) : list T :=
  match l1, l2 with
  | a :: l1', b :: l2' => f a b :: zipWith f l1' l2'
  | _, _ => []
  end.

(** Element-wise application with numpy's broadcasting of scalars and of
    arrays of length one; other length mismatches raise. *)
Definition broadcast {T} (f : expr -> expr -> T) (x y : pyval)
  : res (T + list T) :=
  match x, y with
  | Sc a, Sc b => ret (inl (f a b))
  | Sc a, Vec l => ret (inr (map (f a) l))
  | Vec l, Sc b => ret (inr (map (fun a => f a b) l))
  | Vec l1, Vec l2 =>
      if List.length l1 =? List.length l2 then ret (inr (zipWith f l1 l2))
      else match l1, l2 with
           | [a], _ => ret (inr (map (f a) l2))
           | _, [b] => ret (inr (map (fun a => f a b) l1))
           | _, _ => raise ValueError
           end
  end.

Definition binop (f : expr -> expr -> expr) (a b : res pyval) : res pyval :=
  x <- a ;; y <- b ;;
  r <- broadcast f x y ;;
  ret (match r with inl e => Sc e | inr l => Vec l end).

Definition is_empty (v : pyval) : bool :=
  match v with
  | Vec [] => true
  | _ => false
  end.

(** [a == b], [a <= b], [a >= b].  Scalars compare directly.  When an
    operand is an array gpkit builds the constraints element by element
    through [np.vectorize], which refuses an operand of size zero with
    [ValueError]: comparing an empty slice raises. *)
Definition relop (r : rel) (a b : res pyval) : res (list constraint) :=
  x <- a ;; y <- b ;;
  if is_empty x || is_empty y then raise ValueError
  else
    c <- broadcast (mk r) x y ;;
    ret (match c with inl c => [c] | inr l => l end).

Definition num (q : Q) : res pyval := ret (Sc (Num q)).
Definition int (n : nat) : res pyval := ret (Sc (Num (inject_Z (Z.of_nat n)))).
Definition units (q : Q) (u : string) : res pyval := ret (Sc (Qty q u)).

(** Python's builtin [sum]: [0 + a[0] + a[1] + ...]. *)
Definition sum (a : res pyval) : res pyval :=
  v <- a ;;
  match v with
  | Sc _ => raise TypeError
  | Vec l => ret (Sc (fold_left Add l (Num 0%Q)))
  end.

Declare Scope py_scope.
Delimit Scope py_scope with py.
Notation "a +' b" := (binop Add a b) (at level 50, left associativity) : py_scope.
Notation "a -' b" := (binop Sub a b) (at level 50, left associativity) : py_scope.
Notation "a *' b" := (binop Mul a b) (at level 40, left associativity) : py_scope.
Notation "a /' b" := (binop Div a b) (at level 40, left associativity) : py_scope.
Notation "a ==' b" := (relop EQ a b) (at level 70, no associativity) : py_scope.
Notation "a <=' b" := (relop LE a b) (at level 70, no associativity) : py_scope.
Notation "a >=' b" := (relop GE a b) (at level 70, no associativity) : py_scope.

(** [SignomialEquality(a, b)], built element by element like [==]. *)
Definition SignomialEquality (a b : res pyval) : res (list constraint) :=
  relop SIGEQ a b.

(** A Python list display whose items are constraints or arrays of
    constraints: the items are evaluated in order, the first exception
    aborts, and the arrays are flattened. *)
Fixpoint collect (items : list (res (list constraint))) : res (list constraint) :=
  match items with
  | [] => ret []
  | item :: rest =>
      cs <- item ;;
      cs' <- collect rest ;;
      ret (cs ++ cs')
  end.

(** [TCS([...])] *)
Definition TCS (items : list (res (list constraint))) : res (list constraint) :=
  cs <- collect items ;;
  ret (map set_tight cs).

(** [for x in xs: body] threading the list [constraints] that the body
    extends. *)
Fixpoint for_each {A} (xs : list A)
    (body : A -> list constraint -> res (list constraint))
    (constraints : list constraint) : res (list constraint) :=
  match xs with
  | [] => ret constraints
  | x :: xs' =>
      constraints' <- body x constraints ;;
      for_each xs' body constraints'
  end.

(** [range(n)] *)
Definition range (n : nat) : list nat := seq 0 n.

(** [constraints.extend([...])] *)
Definition extend (constraints : list constraint)
    (items : list (res (list constraint))) : res (list constraint) :=
  cs <- collect items ;;
  ret (constraints ++ cs).

(** ** Meaning of constraints *)

Section Semantics.

(** [uconv u] is the size of the unit [u] in the unit system in which the
    valuation expresses magnitudes. *)
Variable uconv : string -> Q.
Variable rho : var -> Q.

Fixpoint eval (e : expr) : Q :=
  match e with
  | Var v => rho v
  | Num q => q
  | Qty q u => (q * uconv u)%Q
  | Add a b => (eval a + eval b)%Q
  | Sub a b => (eval a - eval b)%Q
  | Mul a b => (eval a * eval b)%Q
  | Div a b => (eval a / eval b)%Q
  end.

(** The feasible set of a constraint.  [TCS] only adds a check after the
    solve and does not change it. *)
Definition sat (c : constraint) : Prop :=
  match op c with
  | EQ | SIGEQ => (eval (lhs c) == eval (rhs c))%Q
  | LE => (eval (lhs c) <= eval (rhs c))%Q
  | GE => (eval (rhs c) <= eval (lhs c))%Q
  end.

Definition satb (c : constraint) : bool :=
  match op c with
  | EQ | SIGEQ => Qeq_bool (eval (lhs c)) (eval (rhs c))
  | LE => Qle_bool (eval (lhs c)) (eval (rhs c))
  | GE => Qle_bool (eval (rhs c)) (eval (lhs c))
  end.

Definition sat_all (cs : list constraint) : Prop :=
  forall c, In c cs -> sat c.

End Semantics.

(** ** The tracked flight-state fields (identical in both files) *)

Definition statevarkeys : list string :=
  [ "p_{sl}"; "T_{sl}"; "L_{atm}"; "M_{atm}"; "P_{atm}"; "R_{atm}";
    "\rho"; "T_{atm}"; "\mu"; "T_s"; "C_1"; "h"; "hft"; "V"; "a"; "R";
    "\gamma"; "M" ]%string.

Definition index_keys (l : list string) (i : nat) : res string :=
  match nth_error l i with
  | Some k => ret k
  | None => raise IndexError
  end.

(** Constraint sets of the sub-models that are built by code outside these
    two files ([simple_ac_imports]).  Of those models only the shapes of the
    variables matter here: a model created inside [with Vectorize(n)] has
    arrays of length [n] (the segments and their flight states), the engine
    and engine-performance arrays of the aircraft span all mission points,
    and the other aircraft variables are scalars. *)
Record submodels : Type := Submodels {
  FlightState : nat -> list constraint;
  Aircraft : nat -> nat -> list constraint;
  ClimbSegment : model -> nat -> list constraint;
  CruiseSegment : nat -> list constraint;
  CruiseClimbSegment : nat -> list constraint
}.

Local Open Scope string_scope.
Local Open Scope py_scope.

(** ** engine_flight_profile_integration.py *)

Module Simple.

(** [StateLinking.setup]: the inner loops rebind [i], which does not
    disturb the outer iteration over [range(len(statevarkeys))]; [varkey]
    is read before they run. *)
Definition StateLinking_setup (climbstate cruisestate enginestate : pymodel)
    (Nclimb Ncruise : nat) : res (list constraint) :=
  let constraints := [] in
  for_each (range (List.length statevarkeys)) (fun i constraints =>
    varkey <- index_keys statevarkeys i ;;
    constraints <- for_each (range Nclimb) (fun i constraints =>
      extend constraints [
        idx (getitem climbstate varkey) (Z.of_nat i)
          ==' idx (getitem enginestate varkey) (Z.of_nat i)
      ]) constraints ;;
    for_each (range Ncruise) (fun i constraints =>
      extend constraints [
        idx (getitem cruisestate varkey) (Z.of_nat i)
          ==' idx (getitem enginestate varkey) (Z.of_nat (i + Nclimb))
      ]) constraints)
    constraints.

Section Mission.

Variable ext : submodels.

(** [Mission.setup] *)
Definition Mission_setup (Nclimb Ncruise : nat) : res (list constraint) :=
  (* with Vectorize(Nclimb + Ncruise): enginestate = FlightState() *)
  enginestate_ <- Vectorize (Nclimb + Ncruise) enginestate ;;
  (* ac = Aircraft(Nclimb, Ncruise, enginestate, eng) *)
  let ac_ := PyModel ac None in
  let ac_engine_ := PyModel ac_engine (Some (Nclimb + Ncruise)) in
  let ac_engine_engineP_ := PyModel ac_engine_engineP (Some (Nclimb + Ncruise)) in
  (* with Vectorize(Nclimb): climb = ClimbSegment(ac) *)
  climb_ <- Vectorize Nclimb climb ;;
  let climb_state_ := PyModel climb_state (vectorization climb_) in
  (* with Vectorize(Ncruise): cruise = CruiseSegment(ac) *)
  cruise_ <- Vectorize Ncruise cruise ;;
  let cruise_state_ := PyModel cruise_state (vectorization cruise_) in
  let cruise_cruiseP_ := PyModel cruise_cruiseP (vectorization cruise_) in

  statelinking <- StateLinking_setup climb_state_ cruise_state_ enginestate_
                    Nclimb Ncruise ;;

  (* declare new variables *)
  let W_ftotal := Variable_ "W_{f_{total}}" in
  let W_fclimb := Variable_ "W_{f_{climb}}" in
  let W_fcruise := Variable_ "W_{f_{cruise}}" in
  let W_total := Variable_ "W_{total}" in
  let CruiseAlt := Variable_ "CruiseAlt" in
  let ReqRng := Variable_ "ReqRng" in
  let W_dry := Variable_ "W_{dry}" in
  let RCmin := Variable_ "RC_{min}" in
  let dhfthold := Variable_ "dhfthold" in

  let hftClimb := getitem climb_ "hft" in
  let dhft := getitem climb_ "dhft" in
  let hftCruise := getitem cruise_ "hft" in

  let NclimbZ := Z.of_nat Nclimb in

  (* make overall constraints *)
  constraints <- extend [] [
    (* weight constraints *)
    TCS [getitem ac_ "W_{e}" +' getitem ac_ "W_{payload}"
         +' getitem ac_ "numeng" *' getitem ac_ "W_{engine}"
         +' getitem ac_ "W_{wing}" <=' W_dry];
    TCS [W_dry +' W_ftotal <=' W_total];

    idx (getitem climb_ "W_{start}") 0 ==' W_total;
    idx (getitem climb_ "W_{end}") (-1) ==' idx (getitem cruise_ "W_{start}") 0;

    TCS [getitem climb_ "W_{start}"
           >=' getitem climb_ "W_{end}" +' getitem climb_ "W_{burn}"];
    TCS [getitem cruise_ "W_{start}"
           >=' getitem cruise_ "W_{end}" +' getitem cruise_ "W_{burn}"];

    slice (getitem climb_ "W_{start}") (Some 1%Z) None
      ==' slice (getitem climb_ "W_{end}") None (Some (-1)%Z);
    slice (getitem cruise_ "W_{start}") (Some 1%Z) None
      ==' slice (getitem cruise_ "W_{end}") None (Some (-1)%Z);

    TCS [W_dry <=' idx (getitem cruise_ "W_{end}") (-1)];

    TCS [W_ftotal >=' W_fclimb +' W_fcruise];
    TCS [W_fclimb >=' sum (getitem climb_ "W_{burn}")];
    TCS [W_fcruise >=' sum (getitem cruise_ "W_{burn}")];

    (* altitude constraints *)
    hftCruise ==' CruiseAlt;
    TCS [slice hftClimb (Some 1%Z) (Some NclimbZ)
           >=' slice hftClimb None (Some (NclimbZ - 1)%Z)
               +' slice dhft None (Some (NclimbZ - 1)%Z)];
    TCS [idx hftClimb 0 >=' idx dhft 0];
    idx hftClimb (-1) <=' hftCruise;

    (* compute the dh *)
    dhfthold ==' idx hftCruise 0 /' int Nclimb;

    dhft ==' dhfthold;

    (* set the range for each cruise segment, doesn't take credit for
       climb down range distance covered *)
    getitem cruise_cruiseP_ "Rng" ==' ReqRng /' int Ncruise;

    (* compute fuel burn from TSFC *)
    getitem cruise_ "W_{burn}"
      ==' getitem ac_ "numeng"
          *' slice (getitem ac_engine_ "TSFC") (Some NclimbZ) None
          *' getitem cruise_ "thr"
          *' slice (getitem ac_engine_ "F") (Some NclimbZ) None;
    getitem climb_ "W_{burn}"
      ==' getitem ac_ "numeng"
          *' slice (getitem ac_engine_ "TSFC") None (Some NclimbZ)
          *' getitem climb_ "thr"
          *' slice (getitem ac_engine_ "F") None (Some NclimbZ);

    CruiseAlt >=' units 30000%Q "ft";

    (* min climb rate constraint *)
    getitem climb_ "RC" >=' RCmin
  ] ;;

  let M2 := 0.8%Q in
  let M25 := 0.6%Q in
  let M0 := 0.8%Q in

  engineclimb <- collect [
    slice (getitem ac_engine_engineP_ "M_2") None (Some NclimbZ)
      ==' getitem climb_ "M";
    slice (getitem ac_engine_engineP_ "M_{2.5}") None (Some NclimbZ)
      ==' num M25;
    getitem ac_engine_engineP_ "hold_{2}"
      ==' num (1 + 0.5 * (1.398 - 1) * M2 ^ 2)%Q;
    getitem ac_engine_engineP_ "hold_{2.5}"
      ==' num (1 + 0.5 * (1.354 - 1) * M25 ^ 2)%Q;
    getitem ac_engine_engineP_ "c1"
      ==' num (1 + 0.5 * 0.401 * M0 ^ 2)%Q;

    (* constraint on drag and thrust *)
    getitem ac_ "numeng" *' slice (getitem ac_engine_ "F") None (Some NclimbZ)
      >=' getitem climb_ "D" +' getitem climb_ "W_{avg}" *' getitem climb_ "\theta";

    (* climb rate constraints *)
    TCS [getitem climb_ "excessP" +' getitem climb_state_ "V" *' getitem climb_ "D"
           <=' getitem climb_state_ "V" *' getitem ac_ "numeng"
               *' slice (getitem ac_engine_ "F") None (Some NclimbZ)]
  ] ;;

  enginecruise <- collect [
    slice (getitem ac_engine_engineP_ "M_2") (Some NclimbZ) None
      ==' getitem cruise_ "M";
    slice (getitem ac_engine_engineP_ "M_{2.5}") (Some NclimbZ) None
      ==' num M25;

    (* steady level flight constraint on D *)
    getitem cruise_ "D"
      ==' getitem ac_ "numeng" *' slice (getitem ac_engine_ "F") (Some NclimbZ) None;

    (* breguet range eqn *)
    TCS [getitem cruise_ "z_{bre}"
           >=' (slice (getitem ac_engine_ "TSFC") (Some NclimbZ) None
                *' getitem cruise_ "thr" *' getitem cruise_ "D")
               /' getitem cruise_ "W_{avg}"]
  ] ;;

  ret (constraints ++ Aircraft ext Nclimb Ncruise
         ++ ClimbSegment ext climb Nclimb
         ++ CruiseSegment ext Ncruise
         ++ enginecruise ++ engineclimb
         ++ FlightState ext (Nclimb + Ncruise)
         ++ statelinking)%list.

End Mission.

End Simple.

(** ** TASOPT_flight_profile_2_climb_segs.py *)

Module TwoClimb.

(** [StateLinking.setup] *)
Definition StateLinking_setup
    (climbstate1 climbstate2 cruisestate enginestate : pymodel)
    (Nclimb1 Nclimb2 Ncruise : nat) : res (list constraint) :=
  let constraints := [] in
  for_each (range (List.length statevarkeys)) (fun i constraints =>
    varkey <- index_keys statevarkeys i ;;
    constraints <- for_each (range Nclimb1) (fun i constraints =>
      extend constraints [
        idx (getitem climbstate1 varkey) (Z.of_nat i)
          ==' idx (getitem enginestate varkey) (Z.of_nat i)
      ]) constraints ;;
    constraints <- for_each (range Nclimb2) (fun i constraints =>
      extend constraints [
        idx (getitem climbstate2 varkey) (Z.of_nat i)
          ==' idx (getitem enginestate varkey) (Z.of_nat (i + Nclimb1))
      ]) constraints ;;
    for_each (range Ncruise) (fun i constraints =>
      extend constraints [
        idx (getitem cruisestate varkey) (Z.of_nat i)
          ==' idx (getitem enginestate varkey) (Z.of_nat (i + Nclimb1 + Nclimb2))
      ]) constraints)
    constraints.

Section Mission.

Variable ext : submodels.

(** [Mission.setup] *)
Definition Mission_setup (Nclimb1 Nclimb2 Ncruise : nat)
  : res (list constraint) :=
  (* with Vectorize(Nclimb1 + Nclimb2 + Ncruise): enginestate = FlightState() *)
  let Ntotal := Nclimb1 + Nclimb2 + Ncruise in
  enginestate_ <- Vectorize Ntotal enginestate ;;
  (* ac = Aircraft(Nclimb1 + Nclimb2, Ncruise, enginestate, eng) *)
  let ac_ := PyModel ac None in
  let ac_engine_ := PyModel ac_engine (Some Ntotal) in
  let ac_engine_engineP_ := PyModel ac_engine_engineP (Some Ntotal) in
  (* with Vectorize(Nclimb1): climb1 = ClimbSegment(ac) *)
  climb1_ <- Vectorize Nclimb1 climb1 ;;
  let climb1_state_ := PyModel climb1_state (vectorization climb1_) in
  (* with Vectorize(Nclimb2): climb2 = ClimbSegment(ac) *)
  climb2_ <- Vectorize Nclimb2 climb2 ;;
  let climb2_state_ := PyModel climb2_state (vectorization climb2_) in
  (* with Vectorize(Ncruise): cruise = CruiseClimbSegment(ac) *)
  cruise_ <- Vectorize Ncruise cruise ;;
  let cruise_state_ := PyModel cruise_state (vectorization cruise_) in

  statelinking <- StateLinking_setup climb1_state_ climb2_state_
                    cruise_state_ enginestate_ Nclimb1 Nclimb2 Ncruise ;;

  (* declare new variables *)
  let W_ftotal := Variable_ "W_{f_{total}}" in
  let W_fclimb1 := Variable_ "W_{f_{climb1}}" in
  let W_fclimb2 := Variable_ "W_{f_{climb2}}" in
  let W_fcruise := Variable_ "W_{f_{cruise}}" in
  let W_total := Variable_ "W_{total}" in
  let CruiseAlt := Variable_ "CruiseAlt" in
  let ReqRng := Variable_ "ReqRng" in
  let W_dry := Variable_ "W_{dry}" in
  let RCmin := Variable_ "RC_{min}" in
  let dhftholdcl1 := Variable_ "dhftholdcl1" in
  let dhftholdcl2 := Variable_ "dhftholdcl2" in
  let dhftholdcr := Variable_ "dhftholdcr" in

  let hftClimb1 := getitem climb1_ "hft" in
  let dhftcl1 := getitem climb1_ "dhft" in
  let hftClimb2 := getitem climb2_ "hft" in
  let dhftcl2 := getitem climb2_ "dhft" in
  let dhftcr := getitem cruise_ "dhft" in
  let hftCruise := getitem cruise_ "hft" in

  let N1 := Z.of_nat Nclimb1 in
  let N2 := Z.of_nat Nclimb2 in
  let N12 := Z.of_nat (Nclimb1 + Nclimb2) in
  let Ncr := Z.of_nat Ncruise in

  (* make overall constraints (with SignomialsEnabled()) *)
  constraints <- extend [] [
    (* weight constraints *)
    TCS [getitem ac_ "W_{e}" +' getitem ac_ "W_{payload}"
         +' getitem ac_ "numeng" *' getitem ac_ "W_{engine}"
         +' getitem ac_ "W_{wing}" <=' W_dry];
    TCS [W_dry +' W_ftotal <=' W_total];

    idx (getitem climb1_ "W_{start}") 0 ==' W_total;
    idx (getitem climb1_ "W_{end}") (-1) ==' idx (getitem climb2_ "W_{start}") 0;
    idx (getitem climb2_ "W_{end}") (-1) ==' idx (getitem cruise_ "W_{start}") 0;

    TCS [getitem climb1_ "W_{start}"
           >=' getitem climb1_ "W_{end}" +' getitem climb1_ "W_{burn}"];
    TCS [getitem climb2_ "W_{start}"
           >=' getitem climb2_ "W_{end}" +' getitem climb2_ "W_{burn}"];
    TCS [getitem cruise_ "W_{start}"
           >=' getitem cruise_ "W_{end}" +' getitem cruise_ "W_{burn}"];

    slice (getitem climb1_ "W_{start}") (Some 1%Z) None
      ==' slice (getitem climb1_ "W_{end}") None (Some (-1)%Z);
    slice (getitem climb2_ "W_{start}") (Some 1%Z) None
      ==' slice (getitem climb2_ "W_{end}") None (Some (-1)%Z);
    slice (getitem cruise_ "W_{start}") (Some 1%Z) None
      ==' slice (getitem cruise_ "W_{end}") None (Some (-1)%Z);

    TCS [W_dry <=' idx (getitem cruise_ "W_{end}") (-1)];

    TCS [W_ftotal >=' W_fclimb1 +' W_fclimb2 +' W_fcruise];
    TCS [W_fclimb1 >=' sum (getitem climb1_ "W_{burn}")];
    TCS [W_fclimb2 >=' sum (getitem climb2_ "W_{burn}")];
    TCS [W_fcruise >=' sum (getitem cruise_ "W_{burn}")];

    (* altitude constraints *)
    idx hftCruise 0 ==' CruiseAlt;
    (* ## TCS([hftCruise[1:Ncruise] >= hftCruise[:Ncruise-1] + dhftcr]), *)
    SignomialEquality (slice hftCruise (Some 1%Z) (Some Ncr))
      (slice hftCruise None (Some (Ncr - 1)%Z) +' dhftholdcr);
    TCS [slice hftClimb2 (Some 1%Z) (Some N2)
           <=' slice hftClimb2 None (Some (N2 - 1)%Z) +' dhftholdcl2];
    TCS [idx hftClimb2 0 <=' dhftholdcl2 +' units 10000%Q "ft"];
    idx hftClimb2 (-1) ==' hftCruise;
    TCS [slice hftClimb1 (Some 1%Z) (Some N1)
           >=' slice hftClimb1 None (Some (N1 - 1)%Z) +' dhftholdcl1];
    TCS [idx hftClimb1 0 ==' idx dhftcl1 0];
    idx hftClimb1 (-1) ==' units 10000%Q "ft";

    (* compute the dh2 *)
    dhftholdcl2 >=' (hftCruise -' units 10000%Q "ft") /' int Nclimb2;
    (* ## SignomialEquality(dhftholdcl2, (hftCruise-10000*units('ft'))/Nclimb2,), *)
    dhftholdcl2 ==' dhftcl2;
    (* compute the dh1 *)
    dhftholdcl1 ==' units 10000%Q "ft" /' int Nclimb1;
    dhftholdcl1 ==' dhftcl1;

    dhftcr ==' dhftholdcr;

    sum (getitem cruise_ "RngCruise") +' sum (getitem climb2_ "RngClimb")
      +' sum (getitem climb1_ "RngClimb") >=' ReqRng;

    (* compute fuel burn from TSFC *)
    getitem cruise_ "W_{burn}"
      ==' getitem ac_ "numeng"
          *' slice (getitem ac_engine_ "TSFC") (Some N12) None
          *' getitem cruise_ "thr"
          *' slice (getitem ac_engine_ "F") (Some N12) None;
    getitem climb1_ "W_{burn}"
      ==' getitem ac_ "numeng"
          *' slice (getitem ac_engine_ "TSFC") None (Some N1)
          *' getitem climb1_ "thr"
          *' slice (getitem ac_engine_ "F") None (Some N1);
    getitem climb2_ "W_{burn}"
      ==' getitem ac_ "numeng"
          *' slice (getitem ac_engine_ "TSFC") (Some N1) (Some N12)
          *' getitem climb2_ "thr"
          *' slice (getitem ac_engine_ "F") (Some N1) (Some N12);

    (* min climb rate constraint *)
    (* ## climb1['RC'][0] >= RCmin, *)

    getitem climb1_ "V" <=' units 250%Q "knots"
  ] ;;

  let M2 := 0.8%Q in
  let M25 := 0.6%Q in
  let M0 := 0.8%Q in

  engineclimb1 <- collect [
    slice (getitem ac_engine_engineP_ "M_2") None (Some N1)
      ==' getitem climb1_ "M";
    getitem ac_engine_engineP_ "M_{2.5}" ==' num M25;
    getitem ac_engine_engineP_ "hold_{2}"
      ==' num (1 + 0.5 * (1.398 - 1) * M2 ^ 2)%Q;
    getitem ac_engine_engineP_ "hold_{2.5}"
      ==' num (1 + 0.5 * (1.354 - 1) * M25 ^ 2)%Q;
    getitem ac_engine_engineP_ "c1"
      ==' num (1 + 0.5 * 0.401 * M0 ^ 2)%Q;

    (* constraint on drag and thrust *)
    getitem ac_ "numeng" *' slice (getitem ac_engine_ "F") None (Some N1)
      >=' getitem climb1_ "D"
          +' getitem climb1_ "W_{avg}" *' getitem climb1_ "\theta";

    (* climb rate constraints *)
    TCS [getitem climb1_ "excessP"
           +' getitem climb1_state_ "V" *' getitem climb1_ "D"
           <=' getitem climb1_state_ "V" *' getitem ac_ "numeng"
               *' slice (getitem ac_engine_ "F") None (Some N1)]
  ] ;;

  engineclimb2 <- collect [
    slice (getitem ac_engine_engineP_ "M_2") (Some N1) (Some N12)
      ==' getitem climb2_ "M";

    (* constraint on drag and thrust *)
    getitem ac_ "numeng"
      *' slice (getitem ac_engine_ "F") (Some N1) (Some N12)
      >=' getitem climb2_ "D"
          +' getitem climb2_ "W_{avg}" *' getitem climb2_ "\theta";

    (* climb rate constraints *)
    TCS [getitem climb2_ "excessP"
           +' getitem climb2_state_ "V" *' getitem climb2_ "D"
           <=' getitem climb2_state_ "V" *' getitem ac_ "numeng"
               *' slice (getitem ac_engine_ "F") (Some N1) (Some N12)]
  ] ;;

  enginecruise <- collect [
    slice (getitem ac_engine_engineP_ "M_2") (Some N12) None
      ==' getitem cruise_ "M";

    (* constraint on drag and thrust *)
    getitem ac_ "numeng" *' slice (getitem ac_engine_ "F") (Some N12) None
      >=' getitem cruise_ "D"
          +' getitem cruise_ "W_{avg}" *' getitem cruise_ "\theta";

    (* climb rate constraints *)
    TCS [getitem cruise_ "excessP"
           +' getitem cruise_state_ "V" *' getitem cruise_ "D"
           <=' getitem cruise_state_ "V" *' getitem ac_ "numeng"
               *' slice (getitem ac_engine_ "F") (Some N12) None]
  ] ;;

  ret (constraints ++ Aircraft ext (Nclimb1 + Nclimb2) Ncruise
         ++ ClimbSegment ext climb1 Nclimb1
         ++ ClimbSegment ext climb2 Nclimb2
         ++ CruiseClimbSegment ext Ncruise
         ++ enginecruise ++ engineclimb1 ++ engineclimb2
         ++ FlightState ext Ntotal
         ++ statelinking)%list.

End Mission.

End TwoClimb.

(** ** Auxiliary definitions for the statements *)

(** A scalar variable declared by [Mission.setup] itself. *)
Definition mvar (name : string) : expr := Var (VarKey Mission name None).

(** Names for the variables the statements are about. *)
Definition W_start (seg : model) (i : nat) : expr := elem seg "W_{start}" i.
Definition W_end (seg : model) (i : nat) : expr := elem seg "W_{end}" i.
Definition W_burn (seg : model) (i : nat) : expr := elem seg "W_{burn}" i.
Definition hft (seg : model) (i : nat) : expr := elem seg "hft" i.
Definition dhft (seg : model) (i : nat) : expr := elem seg "dhft" i.
Definition RC (seg : model) (i : nat) : expr := elem seg "RC" i.
Definition Rng (i : nat) : expr := elem cruise_cruiseP "Rng" i.
Definition W_total : expr := mvar "W_{total}".
Definition W_dry : expr := mvar "W_{dry}".
Definition CruiseAlt : expr := mvar "CruiseAlt".
Definition ReqRng : expr := mvar "ReqRng".
Definition RCmin_var : var := VarKey Mission "RC_{min}" None.
Definition RCmin : expr := Var RCmin_var.
Definition dhfthold : expr := mvar "dhfthold".
Definition dhftholdcl1 : expr := mvar "dhftholdcl1".
Definition dhftholdcl2 : expr := mvar "dhftholdcl2".
Definition dhftholdcr : expr := mvar "dhftholdcr".

(** The expression Python's [sum] builds from the array [key] of a model
    vectorized to length [n]. *)
Definition total (m : model) (key : string) (n : nat) : expr :=
  fold_left Add (vec m key n) (Num 0%Q).

(** A Python integer as an expression. *)
Definition pyint (n : nat) : expr := Num (inject_Z (Z.of_nat n)).

(** The link [seg[key][i] == shared[key][i + offset]] that state linking
    emits for local index [i] of a segment starting at [offset]. *)
Definition link (seg shared : model) (offset : nat) (key : string) (i : nat)
  : constraint :=
  mk EQ (elem seg key i) (elem shared key (offset + i)).

(** The body shared by the linking loops: one [constraints.extend([...])]
    tying local index [i] to shared index [i + offset]. *)
Definition link_body (segstate sharedstate : pymodel) (offset : nat)
    (key : string) (i : nat) (constraints : list constraint)
  : res (list constraint) :=
  extend constraints [
    (idx (getitem segstate key) (Z.of_nat i)
      ==' idx (getitem sharedstate key) (Z.of_nat (i + offset)))%py ].

(** What state linking emits when no index is out of range, in the order
    of emission: per field, one link per local index of each segment. *)
Definition simple_links (cl cr shared : model) (Nclimb Ncruise : nat)
  : list constraint :=
  flat_map (fun key =>
      tab Nclimb (link cl shared 0 key)
      ++ tab Ncruise (link cr shared Nclimb key))%list
    statevarkeys.

Definition twoclimb_links (c1 c2 cr shared : model)
    (Nclimb1 Nclimb2 Ncruise : nat) : list constraint :=
  flat_map (fun key =>
      tab Nclimb1 (link c1 shared 0 key)
      ++ tab Nclimb2 (link c2 shared Nclimb1 key)
      ++ tab Ncruise (link cr shared (Nclimb1 + Nclimb2) key))%list
    statevarkeys.

Definition model_eq_dec (a b : model) : {a = b} + {a <> b}.
Proof. decide equality. Defined.

Definition var_eq_dec (a b : var) : {a = b} + {a <> b}.
Proof.
  decide equality.
  - decide equality. apply Nat.eq_dec.
  - apply string_dec.
  - apply model_eq_dec.
Defined.

Definition is_var (v : var) (e : expr) : bool :=
  match e with
  | Var v' => if var_eq_dec v v' then true else false
  | _ => false
  end.

(** The constraint's right-hand side is position [g] of field [key] of the
    shared sequence. *)
Definition on_global (shared : model) (key : string) (g : nat)
    (c : constraint) : bool :=
  is_var (VarKey shared key (Some g)) (rhs c).

(** The constraint's left-hand side is position [i] of field [key] of the
    segment-local sequence. *)
Definition on_local (seg : model) (key : string) (i : nat)
    (c : constraint) : bool :=
  is_var (VarKey seg key (Some i)) (lhs c).

(** The constraint's right-hand side is position [g] of some field of the
    shared sequence. *)
Definition at_global (shared : model) (g : nat) (c : constraint) : bool :=
  match rhs c with
  | Var (VarKey m _ (Some j)) =>
      (if model_eq_dec m shared then true else false) && Nat.eqb j g
  | _ => false
  end.

(** The start weights along the whole mission, in flight order. *)
Definition simple_W_start_profile (Nclimb Ncruise : nat) : list expr :=
  (vec climb "W_{start}" Nclimb ++ vec cruise "W_{start}" Ncruise)%list.

Definition twoclimb_W_start_profile (Nclimb1 Nclimb2 Ncruise : nat)
  : list expr :=
  (vec climb1 "W_{start}" Nclimb1 ++ vec climb2 "W_{start}" Nclimb2
   ++ vec cruise "W_{start}" Ncruise)%list.

(** Every element is strictly greater than the next one. *)
Fixpoint strictly_decreasing (l : list Q) : Prop :=
  match l with
  | a :: (b :: _) as rest => (b < a)%Q /\ strictly_decreasing rest
  | _ => True
  end.

Fixpoint vars (e : expr) : list var :=
  match e with
  | Var v => [v]
  | Num _ | Qty _ _ => []
  | Add a b | Sub a b | Mul a b | Div a b => (vars a ++ vars b)%list
  end.

Definition constraint_vars (c : constraint) : list var :=
  (vars (lhs c) ++ vars (rhs c))%list.

(** The altitude variables of the simple variant: the altitudes and altitude
    steps of the two segments, the hold variable and the cruise altitude. *)
Definition altitude_var (v : var) : bool :=
  match v with
  | VarKey climb name (Some _) | VarKey cruise name (Some _) =>
      (name =? "hft")%string || (name =? "dhft")%string
  | VarKey Mission name None =>
      (name =? "dhfthold")%string || (name =? "CruiseAlt")%string
  | _ => false
  end.

(** A constraint among altitude variables only. *)
Definition altitude_constraint (c : constraint) : bool :=
  forallb altitude_var (constraint_vars c).

Definition no_submodels : submodels :=
  Submodels (fun _ => []) (fun _ _ => []) (fun _ _ => []) (fun _ => []) (fun _ => []).

(** *** A concrete assignment

    Used to exhibit a feasible point of the simple [Mission(2, 2)].  Every
    unit has size one; weights fall by one per sub-point from 10; [Dcr] is
    the cruise drag. *)
Definition unit_one (u : string) : Q := 1%Q.

Definition segment_offset (m : model) : nat :=
  match m with
  | climb2 => 1
  | cruise => 2
  | _ => 0
  end.

Definition rho_example (Dcr : Q) (v : var) : Q :=
  match v with
  | VarKey m name idx =>
      let i := match idx with Some i => i | None => 0 end in
      let g := inject_Z (Z.of_nat (segment_offset m + i)) in
      (if name =? "W_{start}" then 10 - g
       else if name =? "W_{end}" then 9 - g
       else if name =? "W_{total}" then 10
       else if name =? "W_{dry}" then 6
       else if name =? "W_{f_{total}}" then 4
       else if name =? "W_{f_{climb}}" then 2
       else if name =? "W_{f_{cruise}}" then 2
       else if name =? "hft" then
         match m with
         | climb => 15000 * inject_Z (Z.of_nat (i + 1))
         | climb1 => 10000
         | _ => 30000
         end
       else if name =? "dhft" then
         match m with
         | climb => 15000
         | climb1 => 10000
         | climb2 => 50000
         | _ => 1
         end
       else if name =? "dhfthold" then 15000
       else if name =? "dhftholdcl1" then 10000
       else if name =? "dhftholdcl2" then 50000
       else if name =? "CruiseAlt" then 30000
       else if name =? "ReqRng" then 2
       else if name =? "RC" then match m with climb => 3 | _ => 1 end
       else if name =? "RC_{min}" then 2
       else if name =? "F" then 2
       else if name =? "TSFC" then 0.5
       else if name =? "D" then match m with cruise => Dcr | _ => 0.5 end
       else if name =? "M_{2.5}" then 0.6
       else if name =? "hold_{2}" then 1 + 0.5 * (1.398 - 1) * 0.8 ^ 2
       else if name =? "hold_{2.5}" then 1 + 0.5 * (1.354 - 1) * 0.6 ^ 2
       else if name =? "c1" then 1 + 0.5 * 0.401 * 0.8 ^ 2
       else 1)%Q
  end.

(** ** Names and notions for the further properties *)

Definition W_ftotal : expr := mvar "W_{f_{total}}".
Definition W_fclimb : expr := mvar "W_{f_{climb}}".
Definition W_fclimb1 : expr := mvar "W_{f_{climb1}}".
Definition W_fclimb2 : expr := mvar "W_{f_{climb2}}".
Definition W_fcruise : expr := mvar "W_{f_{cruise}}".
Definition numeng : expr := Var (VarKey ac "numeng" None).
Definition TSFC (g : nat) : expr := elem ac_engine "TSFC" g.
Definition thrust (g : nat) : expr := elem ac_engine "F" g.
Definition thr (seg : model) (i : nat) : expr := elem seg "thr" i.
Definition M_2 (g : nat) : expr := elem ac_engine_engineP "M_2" g.
Definition Mach (seg : model) (i : nat) : expr := elem seg "M" i.
Definition drag (seg : model) (i : nat) : expr := elem seg "D" i.
Definition airspeed (seg : model) (i : nat) : expr := elem seg "V" i.

(** [numeng * TSFC[offset + i] * thr[i] * F[offset + i]] *)
Definition burn_rate (seg : model) (offset i : nat) : expr :=
  Mul (Mul (Mul numeng (TSFC (offset + i))) (thr seg i)) (thrust (offset + i)).

(** [W_{e} + W_{payload} + numeng * W_{engine} + W_{wing}] *)
Definition dry_parts : expr :=
  Add (Add (Add (Var (VarKey ac "W_{e}" None))
                (Var (VarKey ac "W_{payload}" None)))
           (Mul numeng (Var (VarKey ac "W_{engine}" None))))
      (Var (VarKey ac "W_{wing}" None)).

Definition z_bre (i : nat) : expr := elem cruise "z_{bre}" i.
Definition W_avg (seg : model) (i : nat) : expr := elem seg "W_{avg}" i.

Fixpoint Qsum (l : list Q) : Q :=
  match l with
  | [] => 0%Q
  | x :: rest => (x + Qsum rest)%Q
  end.

(** Every constraint wrapped in [TCS] binds: what gpkit's [Tight] checks
    after the solve. *)
Definition tight_all (uconv : string -> Q) (rho : var -> Q)
    (cs : list constraint) : Prop :=
  forall c, In c cs -> tight c = true ->
    (eval uconv rho (lhs c) == eval uconv rho (rhs c))%Q.

Definition tightb (uconv : string -> Q) (rho : var -> Q) (c : constraint)
  : bool :=
  negb (tight c) || Qeq_bool (eval uconv rho (lhs c)) (eval uconv rho (rhs c)).

(** At sub-point [i] of segment [seg] the weights lie between the dry weight
    and the total weight. *)
Definition weights_in_range (uconv : string -> Q) (rho : var -> Q)
    (seg : model) (i : nat) : Prop :=
  (eval uconv rho W_dry <= eval uconv rho (W_end seg i))%Q
  /\ (eval uconv rho (W_end seg i) <= eval uconv rho (W_start seg i))%Q
  /\ (eval uconv rho (W_start seg i) <= eval uconv rho W_total)%Q.

(** *** A feasible assignment of the two-climb [Mission(2, 2, 2)]

    Every unit has size one.  The weights fall by one per sub-point from the
    total weight 10 to the dry weight 4.  The first climb rises in two steps
    of 5000 to 10000, the second climb from 20000 to the cruise altitude
    30000, where the cruise stays: its step is zero.  [step2] is the value of
    the hold variable of the second climb step; the constraints hold for
    every [step2] from 10000 on, and at 10000 every [TCS] constraint
    binds. *)
Definition twoclimb_offset (m : model) : nat :=
  match m with
  | climb2 => 2
  | cruise => 4
  | _ => 0
  end.

Definition rho_two (step2 : Q) (v : var) : Q :=
  match v with
  | VarKey m name idx =>
      let i := match idx with Some i => i | None => 0 end in
      let g := inject_Z (Z.of_nat (twoclimb_offset m + i)) in
      (if name =? "W_{start}" then 10 - g
       else if name =? "W_{end}" then 9 - g
       else if name =? "W_{total}" then 10
       else if name =? "W_{dry}" then 4
       else if name =? "W_{f_{total}}" then 6
       else if name =? "W_{f_{climb1}}" then 2
       else if name =? "W_{f_{climb2}}" then 2
       else if name =? "W_{f_{cruise}}" then 2
       else if name =? "hft" then
         match m with
         | climb1 => 5000 * inject_Z (Z.of_nat (i + 1))
         | climb2 => 10000 * inject_Z (Z.of_nat (i + 2))
         | _ => 30000
         end
       else if name =? "dhft" then
         match m with
         | climb1 => 5000
         | climb2 => step2
         | cruise => 0
         | _ => 1
         end
       else if name =? "dhftholdcl1" then 5000
       else if name =? "dhftholdcl2" then step2
       else if name =? "dhftholdcr" then 0
       else if name =? "CruiseAlt" then 30000
       else if name =? "ReqRng" then 2
       else if name =? "RC_{min}" then 2
       else if name =? "F" then 2
       else if name =? "TSFC" then 0.5
       else if name =? "D" then 0.5
       else if name =? "excessP" then 1.5
       else if name =? "M_{2.5}" then 0.6
       else if name =? "hold_{2}" then 1 + 0.5 * (1.398 - 1) * 0.8 ^ 2
       else if name =? "hold_{2.5}" then 1 + 0.5 * (1.354 - 1) * 0.6 ^ 2
       else if name =? "c1" then 1 + 0.5 * 0.401 * 0.8 ^ 2
       else 1)%Q
  end.

(** *** The range requirement *)

Definition ReqRng_var : var := VarKey Mission "ReqRng" None.

(** [sum(cruise['RngCruise']) + sum(climb2['RngClimb'])
     + sum(climb1['RngClimb']) >= ReqRng] *)
Definition twoclimb_range_requirement (Nclimb1 Nclimb2 Ncruise : nat)
  : constraint :=
  mk GE (Add (Add (total cruise "RngCruise" Ncruise)
                  (total climb2 "RngClimb" Nclimb2))
             (total climb1 "RngClimb" Nclimb1))
        ReqRng.

(** [cruise.cruiseP['Rng'][k] == ReqRng / Ncruise] *)
Definition simple_range_quota (Ncruise k : nat) : constraint :=
  mk EQ (Rng k) (Div ReqRng (pyint Ncruise)).

Local Close Scope string_scope.

(** ** Arrays *)

Lemma tab_length {T} n (g : nat -> T) : List.length (tab n g) = n.
Proof. unfold tab. now rewrite length_map, length_seq. Qed.

Lemma tab_nth_error {T} n (g : nat -> T) i :
  i < n -> nth_error (tab n g) i = Some (g i).
Proof.
  intros Hi. unfold tab.
  rewrite nth_error_map, nth_error_seq.
  destruct (Nat.ltb_spec i n); [reflexivity | lia].
Qed.

Lemma In_tab {T} n (g : nat -> T) x :
  In x (tab n g) <-> exists i, i < n /\ x = g i.
Proof.
  unfold tab. rewrite in_map_iff. split.
  - intros (i & <- & Hi). apply in_seq in Hi. exists i. split; [lia | easy].
  - intros (i & Hi & ->). exists i. split; [easy | apply in_seq; lia].
Qed.

Lemma map_seq_shift {T} (g : nat -> T) a n :
  map g (seq a n) = tab n (fun i => g (a + i)).
Proof.
  unfold tab. revert a. induction n as [|n IH]; intros a; [reflexivity|].
  cbn [seq map]. rewrite Nat.add_0_r. f_equal.
  rewrite IH. rewrite <- seq_shift, map_map.
  apply map_ext. intros i. f_equal. lia.
Qed.

Lemma map_tab {T U} (f : T -> U) n (g : nat -> T) :
  map f (tab n g) = tab n (fun i => f (g i)).
Proof. unfold tab. now rewrite map_map. Qed.

Lemma zipWith_tab {T} (f : expr -> expr -> T) n g h :
  zipWith f (tab n g) (tab n h) = tab n (fun i => f (g i) (h i)).
Proof.
  unfold tab. generalize 0. induction n as [|n IH]; intros a; [reflexivity|].
  cbn. now rewrite IH.
Qed.

Lemma tab_S {T} n (g : nat -> T) : tab (S n) g = tab n g ++ [g n].
Proof. unfold tab. now rewrite seq_S, map_app. Qed.

Lemma skipn_seq_from a s n : skipn a (seq s n) = seq (s + a) (n - a).
Proof.
  revert s n. induction a as [|a IH]; intros s n.
  - now rewrite Nat.add_0_r, Nat.sub_0_r.
  - destruct n as [|n]; [reflexivity|].
    cbn [seq skipn]. rewrite IH. f_equal. lia.
Qed.

Lemma firstn_seq_upto c s n : firstn c (seq s n) = seq s (Nat.min c n).
Proof.
  revert s n. induction c as [|c IH]; intros s n; [reflexivity|].
  destruct n as [|n]; [reflexivity|].
  cbn [seq firstn Nat.min]. now rewrite IH.
Qed.

Lemma firstn_skipn_tab {T} (g : nat -> T) n a c :
  a + c <= n ->
  firstn c (skipn a (tab n g)) = tab c (fun i => g (a + i)).
Proof.
  intros H. unfold tab at 1.
  rewrite skipn_map, firstn_map, skipn_seq_from, firstn_seq_upto.
  rewrite Nat.min_l by lia. cbn [Nat.add]. apply map_seq_shift.
Qed.

(** ** Indexing and slicing arrays *)

Lemma index_list_nat n g i :
  i < n -> index_list (tab n g) (Z.of_nat i) = inr (g i).
Proof.
  intros Hi. unfold index_list. rewrite tab_length.
  destruct (Z.ltb_spec (Z.of_nat i) 0); [lia|].
  destruct (Z.leb_spec 0 (Z.of_nat i)); [|lia].
  destruct (Z.ltb_spec (Z.of_nat i) (Z.of_nat n)); [|lia].
  cbn [andb]. rewrite Nat2Z.id, tab_nth_error by assumption. reflexivity.
Qed.

Lemma index_list_oob n g i :
  n <= i -> index_list (tab n g) (Z.of_nat i) = inl IndexError.
Proof.
  intros Hi. unfold index_list. rewrite tab_length.
  destruct (Z.ltb_spec (Z.of_nat i) 0); [lia|].
  destruct (Z.leb_spec 0 (Z.of_nat i)); [|lia].
  destruct (Z.ltb_spec (Z.of_nat i) (Z.of_nat n)); [lia|].
  reflexivity.
Qed.

Lemma index_list_last n g :
  0 < n -> index_list (tab n g) (-1) = inr (g (n - 1)).
Proof.
  intros Hn. unfold index_list. rewrite tab_length.
  change (-1 <? 0)%Z with true. cbv iota.
  destruct (Z.leb_spec 0 (-1 + Z.of_nat n)); [|lia].
  destruct (Z.ltb_spec (-1 + Z.of_nat n) (Z.of_nat n)); [|lia].
  cbn [andb].
  replace (Z.to_nat (-1 + Z.of_nat n)) with (n - 1) by lia.
  rewrite tab_nth_error by lia. reflexivity.
Qed.

Lemma index_list_empty g i : index_list (tab 0 g) i = inl IndexError.
Proof.
  unfold index_list. cbn.
  destruct (Z.ltb_spec i 0).
  - destruct (Z.leb_spec 0 (i + 0)); [lia | reflexivity].
  - destruct (Z.leb_spec 0 i); [|lia].
    destruct (Z.ltb_spec i 0); [lia | reflexivity].
Qed.

Lemma slice_list_tab n g lo hi a c :
  Z.of_nat a = match lo with None => 0%Z | Some b => clamp (Z.of_nat n) b end ->
  Z.of_nat (a + c) =
    Z.max (Z.of_nat a)
          (match hi with None => Z.of_nat n | Some b => clamp (Z.of_nat n) b end) ->
  slice_list (tab n g) lo hi = tab c (fun i => g (a + i)).
Proof.
  intros Ha Hc. unfold slice_list. rewrite tab_length, <- Ha.
  assert (Hle : a + c <= n \/ c = 0).
  { destruct hi as [b|]; unfold clamp in *;
      try destruct (Z.ltb_spec b 0); lia. }
  rewrite Nat2Z.id.
  match goal with |- firstn ?k _ = _ => replace k with c end.
  - destruct Hle as [Hle | ->]; [now apply firstn_skipn_tab | reflexivity].
  - destruct hi as [b|]; unfold clamp in *;
      try destruct (Z.ltb_spec b 0); lia.
Qed.

(** ** The lifted operators on arrays in tabulated form *)

Lemma getitem_vec m n key :
  getitem (PyModel m (Some n)) key = inr (Vec (tab n (elem m key))).
Proof. reflexivity. Qed.

Lemma getitem_scalar m key :
  getitem (PyModel m None) key = inr (Sc (Var (VarKey m key None))).
Proof. reflexivity. Qed.

Lemma Variable_scalar name : Variable_ name = inr (Sc (mvar name)).
Proof. reflexivity. Qed.

Lemma idx_nat n g i :
  i < n -> idx (inr (Vec (tab n g))) (Z.of_nat i) = inr (Sc (g i)).
Proof. intros H. cbn [idx bind]. now rewrite index_list_nat. Qed.

Lemma idx_first n g :
  0 < n -> idx (inr (Vec (tab n g))) 0 = inr (Sc (g 0)).
Proof. intros H. now apply (idx_nat g H). Qed.

Lemma idx_last n g :
  0 < n -> idx (inr (Vec (tab n g))) (-1) = inr (Sc (g (n - 1))).
Proof. intros H. cbn [idx bind]. now rewrite index_list_last. Qed.

Lemma idx_empty g i : idx (inr (Vec (tab 0 g))) i = inl IndexError.
Proof. cbn [idx bind]. now rewrite index_list_empty. Qed.

Lemma slice_tail n g :
  slice (inr (Vec (tab n g))) (Some 1%Z) None
  = inr (Vec (tab (n - 1) (fun i => g (1 + i)))).
Proof.
  destruct n as [|n]; [reflexivity|].
  unfold slice, bind, ret. f_equal. f_equal.
  apply slice_list_tab; unfold clamp; cbn [Z.ltb Z.compare]; lia.
Qed.

Lemma slice_init n g :
  slice (inr (Vec (tab n g))) None (Some (-1)%Z)
  = inr (Vec (tab (n - 1) (fun i => g (0 + i)))).
Proof.
  unfold slice, bind, ret. f_equal. f_equal.
  apply slice_list_tab; unfold clamp; cbn [Z.ltb Z.compare]; lia.
Qed.

Lemma slice_tail_to n g :
  slice (inr (Vec (tab n g))) (Some 1%Z) (Some (Z.of_nat n))
  = inr (Vec (tab (n - 1) (fun i => g (1 + i)))).
Proof.
  destruct n as [|n]; [reflexivity|].
  unfold slice, bind, ret. f_equal. f_equal.
  apply slice_list_tab; unfold clamp; cbn [Z.ltb Z.compare];
    try destruct (Z.ltb_spec (Z.of_nat (S n)) 0); lia.
Qed.

Lemma slice_init_to n g :
  slice (inr (Vec (tab n g))) None (Some (Z.of_nat n - 1)%Z)
  = inr (Vec (tab (n - 1) (fun i => g (0 + i)))).
Proof.
  unfold slice, bind, ret. f_equal. f_equal.
  apply slice_list_tab; unfold clamp;
    try destruct (Z.ltb_spec (Z.of_nat n - 1) 0); lia.
Qed.

Lemma slice_from n g a :
  a <= n ->
  slice (inr (Vec (tab n g))) (Some (Z.of_nat a)) None
  = inr (Vec (tab (n - a) (fun i => g (a + i)))).
Proof.
  intros H. unfold slice, bind, ret. f_equal. f_equal.
  apply slice_list_tab; unfold clamp;
    try destruct (Z.ltb_spec (Z.of_nat a) 0); lia.
Qed.

Lemma slice_upto n g a :
  a <= n ->
  slice (inr (Vec (tab n g))) None (Some (Z.of_nat a))
  = inr (Vec (tab a (fun i => g (0 + i)))).
Proof.
  intros H. unfold slice, bind, ret. f_equal. f_equal.
  apply slice_list_tab; unfold clamp;
    try destruct (Z.ltb_spec (Z.of_nat a) 0); lia.
Qed.

Lemma slice_between n g a b :
  a <= b -> b <= n ->
  slice (inr (Vec (tab n g))) (Some (Z.of_nat a)) (Some (Z.of_nat b))
  = inr (Vec (tab (b - a) (fun i => g (a + i)))).
Proof.
  intros H1 H2. unfold slice, bind, ret. f_equal. f_equal.
  apply slice_list_tab; unfold clamp;
    try destruct (Z.ltb_spec (Z.of_nat a) 0);
    try destruct (Z.ltb_spec (Z.of_nat b) 0); lia.
Qed.

Lemma broadcast_vv {T} (f : expr -> expr -> T) n n' g h :
  n = n' ->
  broadcast f (Vec (tab n g)) (Vec (tab n' h))
  = inr (inr (tab n (fun i => f (g i) (h i)))).
Proof.
  intros <-. unfold broadcast.
  now rewrite !tab_length, Nat.eqb_refl, zipWith_tab.
Qed.

Lemma binop_vv f n n' g h :
  n = n' ->
  binop f (inr (Vec (tab n g))) (inr (Vec (tab n' h)))
  = inr (Vec (tab n (fun i => f (g i) (h i)))).
Proof. intros H. unfold binop. cbn [bind]. now rewrite broadcast_vv. Qed.

Lemma binop_vs f n g b :
  binop f (inr (Vec (tab n g))) (inr (Sc b))
  = inr (Vec (tab n (fun i => f (g i) b))).
Proof. unfold binop. cbn [bind broadcast ret]. now rewrite map_tab. Qed.

Lemma binop_sv f n a h :
  binop f (inr (Sc a)) (inr (Vec (tab n h)))
  = inr (Vec (tab n (fun i => f a (h i)))).
Proof. unfold binop. cbn [bind broadcast ret]. now rewrite map_tab. Qed.

Lemma binop_ss f a b :
  binop f (inr (Sc a)) (inr (Sc b)) = inr (Sc (f a b)).
Proof. reflexivity. Qed.

Lemma is_empty_tab n g : is_empty (Vec (tab n g)) = (n =? 0).
Proof. destruct n; reflexivity. Qed.

Lemma relop_vv r n n' g h :
  0 < n -> n = n' ->
  relop r (inr (Vec (tab n g))) (inr (Vec (tab n' h)))
  = inr (tab n (fun i => mk r (g i) (h i))).
Proof.
  intros Hn <-. unfold relop. cbn [bind]. rewrite !is_empty_tab.
  destruct (Nat.eqb_spec n 0); [lia|]. cbn [orb].
  now rewrite broadcast_vv.
Qed.

Lemma relop_vs r n g b :
  0 < n ->
  relop r (inr (Vec (tab n g))) (inr (Sc b))
  = inr (tab n (fun i => mk r (g i) b)).
Proof.
  intros Hn. unfold relop. cbn [bind]. rewrite is_empty_tab.
  destruct (Nat.eqb_spec n 0); [lia|].
  cbn [orb is_empty broadcast bind ret]. now rewrite map_tab.
Qed.

Lemma relop_sv r n a h :
  0 < n ->
  relop r (inr (Sc a)) (inr (Vec (tab n h)))
  = inr (tab n (fun i => mk r a (h i))).
Proof.
  intros Hn. unfold relop. cbn [bind]. rewrite is_empty_tab.
  destruct (Nat.eqb_spec n 0); [lia|].
  cbn [orb is_empty broadcast bind ret]. now rewrite map_tab.
Qed.

(** Comparing an empty array raises. *)
Lemma relop_empty_l r n g y :
  n = 0 -> relop r (inr (Vec (tab n g))) (inr y) = inl ValueError.
Proof. intros ->. reflexivity. Qed.

Lemma relop_empty_r r x n h :
  n = 0 -> relop r (inr x) (inr (Vec (tab n h))) = inl ValueError.
Proof.
  intros ->. unfold relop. cbn [bind tab seq map is_empty].
  now rewrite orb_true_r.
Qed.

Lemma Vectorize_pos n m :
  0 < n -> Vectorize n m = inr (PyModel m (Some n)).
Proof. destruct n; [lia | reflexivity]. Qed.

Lemma relop_ss r a b :
  relop r (inr (Sc a)) (inr (Sc b)) = inr [mk r a b].
Proof. reflexivity. Qed.

Lemma sum_vec l : sum (inr (Vec l)) = inr (Sc (fold_left Add l (Num 0))).
Proof. reflexivity. Qed.

Lemma TCS_tab n g :
  TCS [inr (tab n g)] = inr (tab n (fun i => set_tight (g i))).
Proof. unfold TCS. cbn [collect bind ret]. now rewrite app_nil_r, map_tab. Qed.

Lemma TCS_one c : TCS [inr [c]] = inr [set_tight c].
Proof. reflexivity. Qed.

Lemma int_scalar n : int n = inr (Sc (Num (inject_Z (Z.of_nat n)))).
Proof. reflexivity. Qed.

Lemma num_scalar q : num q = inr (Sc (Num q)).
Proof. reflexivity. Qed.

Lemma units_scalar q u : units q u = inr (Sc (Qty q u)).
Proof. reflexivity. Qed.

Create Rewrite HintDb py.
#[local] Hint Rewrite getitem_vec getitem_scalar Variable_scalar
  int_scalar num_scalar units_scalar
  slice_tail slice_init slice_tail_to slice_init_to
  binop_vs binop_sv binop_ss relop_ss
  sum_vec TCS_tab TCS_one : py.
#[local] Hint Rewrite idx_first idx_last slice_from slice_upto
  binop_vv relop_vv relop_vs relop_sv using lia : py.
#[local] Hint Rewrite slice_between using lia : py.
#[local] Hint Rewrite relop_empty_l relop_empty_r using lia : py.

Lemma relop_raise_l r e b : relop r (inl e) b = inl e.
Proof. reflexivity. Qed.

Lemma relop_raise_r r x e : relop r (inr x) (inl e) = inl e.
Proof. reflexivity. Qed.

Lemma SignomialEquality_relop a b : SignomialEquality a b = relop SIGEQ a b.
Proof. reflexivity. Qed.

#[local] Hint Rewrite idx_empty relop_raise_l relop_raise_r
  SignomialEquality_relop : py.

(** ** Lists of items *)

Lemma bind_inr {A B} (m : res A) (k : A -> res B) b :
  bind m k = inr b -> exists a, m = inr a /\ k a = inr b.
Proof. destruct m as [e|a]; [discriminate | eauto]. Qed.

Lemma bind_ext {A B} (m : res A) (k1 k2 : A -> res B) :
  (forall a, k1 a = k2 a) -> bind m k1 = bind m k2.
Proof. intros H. destruct m; [reflexivity | apply H]. Qed.

Lemma extend_nil items : extend [] items = collect items.
Proof. unfold extend. destruct (collect items); reflexivity. Qed.

(** ** Loops *)

Lemma for_each_ok {A} (xs : list A) body (f : A -> list constraint) acc :
  (forall x acc, In x xs -> body x acc = inr (acc ++ f x)) ->
  for_each xs body acc = inr (acc ++ flat_map f xs).
Proof.
  revert acc. induction xs as [|x xs IH]; intros acc H.
  - cbn. now rewrite app_nil_r.
  - cbn [for_each flat_map]. rewrite H by now left. cbn [bind].
    rewrite IH by (intros; apply H; now right).
    now rewrite app_assoc.
Qed.

Lemma for_each_raise {A} (xs1 xs2 : list A) x body
    (f : A -> list constraint) e acc :
  (forall y acc, In y xs1 -> body y acc = inr (acc ++ f y)) ->
  (forall acc, body x acc = inl e) ->
  for_each (xs1 ++ x :: xs2) body acc = inl e.
Proof.
  revert acc. induction xs1 as [|y xs1 IH]; intros acc H He.
  - cbn. now rewrite He.
  - cbn [app for_each]. rewrite H by now left. cbn [bind].
    apply IH; [intros; apply H; now right | assumption].
Qed.

Lemma for_each_keys (l : list string) body acc :
  for_each (range (List.length l))
    (fun i acc => varkey <- index_keys l i ;; body varkey acc) acc
  = for_each l body acc.
Proof.
  unfold range.
  enough (G : forall pre l2 acc, l = pre ++ l2 ->
            for_each (seq (List.length pre) (List.length l2))
              (fun i acc => varkey <- index_keys l i ;; body varkey acc) acc
            = for_each l2 body acc)
    by (apply (G [] l acc); reflexivity).
  intros pre l2. revert pre. induction l2 as [|k l2 IH]; intros pre acc0 E.
  - reflexivity.
  - cbn [List.length seq for_each].
    unfold index_keys at 1. subst l.
    rewrite nth_error_app2, Nat.sub_diag by lia. cbn [nth_error bind ret].
    destruct (body k acc0) as [e|acc1]; [reflexivity|]. cbn [bind].
    specialize (IH (pre ++ [k]) acc1).
    rewrite length_app, Nat.add_1_r in IH. apply IH.
    now rewrite <- app_assoc.
Qed.

Lemma flat_map_single {A T} (g : A -> T) l :
  flat_map (fun i => [g i]) l = map g l.
Proof. induction l as [|x l IH]; cbn; congruence. Qed.

(** ** One linking loop *)

Section LinkLoop.

Variables (seg shared : model) (Lseg Lshared : nat).
Variables (offset : nat) (key : string).

Local Abbreviation body :=
  (link_body (PyModel seg (Some Lseg)) (PyModel shared (Some Lshared))
     offset key).

Lemma link_body_ok i acc :
  i < Lseg -> i + offset < Lshared ->
  body i acc = inr (acc ++ [link seg shared offset key i]).
Proof.
  intros H1 H2. unfold link_body, extend.
  rewrite !getitem_vec, !idx_nat by lia.
  cbn. unfold link. now rewrite (Nat.add_comm offset i).
Qed.

Lemma link_body_raise i acc :
  Lseg <= i \/ Lshared <= i + offset ->
  body i acc = inl IndexError.
Proof.
  intros H. unfold link_body, extend.
  rewrite !getitem_vec. cbn [idx bind].
  destruct (Nat.lt_ge_cases i Lseg) as [Hlt | Hge].
  - rewrite index_list_nat by assumption.
    rewrite index_list_oob by lia. reflexivity.
  - rewrite index_list_oob by assumption. reflexivity.
Qed.

Lemma link_loop_ok N acc :
  N <= Lseg -> N + offset <= Lshared ->
  for_each (range N) body acc
  = inr (acc ++ tab N (link seg shared offset key)).
Proof.
  intros H1 H2. unfold range.
  rewrite for_each_ok with (f := fun i => [link seg shared offset key i]).
  - now rewrite flat_map_single.
  - intros i a Hi. apply in_seq in Hi. apply link_body_ok; lia.
Qed.

Lemma link_loop_raise N acc :
  0 < N -> Lseg < N \/ Lshared < N + offset ->
  for_each (range N) body acc = inl IndexError.
Proof.
  intros HN H. unfold range.
  pose (i0 := Nat.min Lseg (Lshared - offset)).
  assert (Hi0 : i0 < N) by (unfold i0; lia).
  assert (Hbad : Lseg <= i0 \/ Lshared <= i0 + offset) by (unfold i0; lia).
  assert (Hgood : forall i, i < i0 -> i < Lseg /\ i + offset < Lshared)
    by (unfold i0; lia).
  clearbody i0.
  replace (seq 0 N) with (seq 0 i0 ++ i0 :: seq (S i0) (N - S i0)).
  - apply for_each_raise with (f := fun i => [link seg shared offset key i]).
    + intros i a Hi. apply in_seq in Hi.
      apply link_body_ok; apply Hgood; lia.
    + intros a. now apply link_body_raise.
  - change (i0 :: seq (S i0) (N - S i0)) with (seq i0 (S (N - S i0))).
    rewrite <- seq_app. f_equal. lia.
Qed.

Lemma link_loop_dec N acc :
  for_each (range N) body acc
  = if (N =? 0) || ((N <=? Lseg) && (N + offset <=? Lshared))
    then inr (acc ++ tab N (link seg shared offset key))
    else inl IndexError.
Proof.
  destruct (Nat.eqb_spec N 0) as [->|HN]; cbn [orb].
  { cbn. now rewrite app_nil_r. }
  destruct (Nat.leb_spec N Lseg);
    [destruct (Nat.leb_spec (N + offset) Lshared)|]; cbn [andb].
  - now apply link_loop_ok.
  - apply link_loop_raise; lia.
  - apply link_loop_raise; lia.
Qed.

End LinkLoop.

Lemma for_each_ext {A} (xs : list A) b1 b2 acc :
  (forall x a, b1 x a = b2 x a) ->
  for_each xs b1 acc = for_each xs b2 acc.
Proof.
  intros H. revert acc. induction xs as [|x xs IH]; intros acc; [reflexivity|].
  cbn [for_each]. rewrite H. destruct (b2 x acc); [reflexivity|]. apply IH.
Qed.

Lemma link_body_first segstate sharedstate key i acc :
  extend acc [
    (idx (getitem segstate key) (Z.of_nat i)
      ==' idx (getitem sharedstate key) (Z.of_nat i))%py ]
  = link_body segstate sharedstate 0 key i acc.
Proof. unfold link_body. now rewrite Nat.add_0_r. Qed.

(** ** State linking in closed form *)

Lemma simple_statelinking cl cr es Lcl Lcr Les Nclimb Ncruise :
  Simple.StateLinking_setup (PyModel cl (Some Lcl)) (PyModel cr (Some Lcr))
    (PyModel es (Some Les)) Nclimb Ncruise
  = if (Nclimb <=? Lcl) && (Ncruise <=? Lcr) && (Nclimb + Ncruise <=? Les)
    then inr (simple_links cl cr es Nclimb Ncruise)
    else inl IndexError.
Proof.
  unfold Simple.StateLinking_setup. rewrite for_each_keys.
  set (cls := PyModel cl (Some Lcl)).
  set (crs := PyModel cr (Some Lcr)).
  set (ess := PyModel es (Some Les)).
  assert (Hbody : forall key acc,
    (constraints <- for_each (range Nclimb) (fun i constraints =>
        extend constraints [
          (idx (getitem cls key) (Z.of_nat i)
            ==' idx (getitem ess key) (Z.of_nat i))%py ]) acc ;;
     for_each (range Ncruise) (fun i constraints =>
        extend constraints [
          (idx (getitem crs key) (Z.of_nat i)
            ==' idx (getitem ess key) (Z.of_nat (i + Nclimb)))%py ])
       constraints)
    = (constraints <- for_each (range Nclimb) (link_body cls ess 0 key) acc ;;
       for_each (range Ncruise) (link_body crs ess Nclimb key) constraints)).
  { intros key acc. f_equal. apply for_each_ext. intros.
    apply link_body_first. }
  destruct (Nat.leb_spec Nclimb Lcl) as [H1|H1];
    [destruct (Nat.leb_spec Ncruise Lcr) as [H2|H2];
      [destruct (Nat.leb_spec (Nclimb + Ncruise) Les) as [H3|H3]|]|];
    cbn [andb].
  - unfold simple_links. rewrite <- (app_nil_l (flat_map _ _)).
    apply for_each_ok. intros key acc _. rewrite Hbody.
    unfold cls, crs, ess.
    rewrite link_loop_ok by lia. cbn [bind].
    rewrite link_loop_ok by lia. now rewrite <- app_assoc.
  - unfold statevarkeys. cbn [for_each]. rewrite Hbody. unfold cls, crs, ess.
    destruct (Nat.le_gt_cases Nclimb Les).
    + rewrite link_loop_ok by lia. cbn [bind].
      rewrite link_loop_raise by lia. reflexivity.
    + rewrite link_loop_raise by lia. reflexivity.
  - unfold statevarkeys. cbn [for_each]. rewrite Hbody. unfold cls, crs, ess.
    destruct (Nat.le_gt_cases Nclimb Les).
    + rewrite link_loop_ok by lia. cbn [bind].
      rewrite link_loop_raise by lia. reflexivity.
    + rewrite link_loop_raise by lia. reflexivity.
  - unfold statevarkeys. cbn [for_each]. rewrite Hbody. unfold cls, crs, ess.
    rewrite link_loop_raise by lia. reflexivity.
Qed.

Lemma twoclimb_statelinking c1 c2 cr es L1 L2 Lcr Les Nclimb1 Nclimb2 Ncruise :
  TwoClimb.StateLinking_setup (PyModel c1 (Some L1)) (PyModel c2 (Some L2))
    (PyModel cr (Some Lcr)) (PyModel es (Some Les)) Nclimb1 Nclimb2 Ncruise
  = if (Nclimb1 <=? L1) && (Nclimb2 <=? L2) && (Ncruise <=? Lcr)
       && (Nclimb1 + Nclimb2 + Ncruise <=? Les)
    then inr (twoclimb_links c1 c2 cr es Nclimb1 Nclimb2 Ncruise)
    else inl IndexError.
Proof.
  unfold TwoClimb.StateLinking_setup. rewrite for_each_keys.
  set (s1 := PyModel c1 (Some L1)).
  set (s2 := PyModel c2 (Some L2)).
  set (crs := PyModel cr (Some Lcr)).
  set (ess := PyModel es (Some Les)).
  rewrite for_each_ext with
    (b2 := fun key acc =>
       constraints <- for_each (range Nclimb1) (link_body s1 ess 0 key) acc ;;
       constraints <- for_each (range Nclimb2)
                        (link_body s2 ess Nclimb1 key) constraints ;;
       for_each (range Ncruise)
         (link_body crs ess (Nclimb1 + Nclimb2) key) constraints).
  2:{ intros key acc.
      rewrite for_each_ext with (b2 := link_body s1 ess 0 key)
        by (intros; apply link_body_first).
      apply bind_ext. intros acc1. apply bind_ext. intros acc2.
      apply for_each_ext. intros i a. unfold link_body.
      now rewrite Nat.add_assoc. }
  unfold s1, s2, crs, ess.
  set (b1 := (Nclimb1 =? 0) || ((Nclimb1 <=? L1) && (Nclimb1 + 0 <=? Les))).
  set (b2 := (Nclimb2 =? 0) || ((Nclimb2 <=? L2) && (Nclimb2 + Nclimb1 <=? Les))).
  set (b3 := (Ncruise =? 0)
             || ((Ncruise <=? Lcr) && (Ncruise + (Nclimb1 + Nclimb2) <=? Les))).
  assert (Hcond : (Nclimb1 <=? L1) && (Nclimb2 <=? L2) && (Ncruise <=? Lcr)
                  && (Nclimb1 + Nclimb2 + Ncruise <=? Les) = b1 && b2 && b3).
  { unfold b1, b2, b3.
    destruct (Nat.eqb_spec Nclimb1 0), (Nat.eqb_spec Nclimb2 0),
      (Nat.eqb_spec Ncruise 0),
      (Nat.leb_spec Nclimb1 L1), (Nat.leb_spec Nclimb2 L2),
      (Nat.leb_spec Ncruise Lcr),
      (Nat.leb_spec (Nclimb1 + Nclimb2 + Ncruise) Les),
      (Nat.leb_spec (Nclimb1 + 0) Les),
      (Nat.leb_spec (Nclimb2 + Nclimb1) Les),
      (Nat.leb_spec (Ncruise + (Nclimb1 + Nclimb2)) Les);
      cbn; try reflexivity; lia. }
  rewrite Hcond.
  assert (Hbody : forall key acc,
    (constraints <- for_each (range Nclimb1)
        (link_body (PyModel c1 (Some L1)) (PyModel es (Some Les)) 0 key) acc ;;
     constraints <- for_each (range Nclimb2)
        (link_body (PyModel c2 (Some L2)) (PyModel es (Some Les)) Nclimb1 key)
        constraints ;;
     for_each (range Ncruise)
        (link_body (PyModel cr (Some Lcr)) (PyModel es (Some Les))
           (Nclimb1 + Nclimb2) key) constraints)
    = if b1 && b2 && b3
      then inr (acc ++ (tab Nclimb1 (link c1 es 0 key)
                        ++ tab Nclimb2 (link c2 es Nclimb1 key)
                        ++ tab Ncruise (link cr es (Nclimb1 + Nclimb2) key)))
      else inl IndexError).
  { intros key acc. rewrite link_loop_dec. fold b1.
    destruct b1; [|reflexivity]. cbn [bind andb].
    rewrite link_loop_dec. fold b2.
    destruct b2; [|reflexivity]. cbn [bind andb].
    rewrite link_loop_dec. fold b3.
    destruct b3; [|reflexivity].
    now rewrite <- !app_assoc. }
  destruct (b1 && b2 && b3) eqn:E.
  - unfold twoclimb_links. rewrite <- (app_nil_l (flat_map _ _)).
    apply for_each_ok. intros key acc _. apply Hbody.
  - unfold statevarkeys. cbn [for_each]. now rewrite Hbody.
Qed.

(** ** Counting links *)

Lemma filter_tab_none {T} (p : T -> bool) n (f : nat -> T) :
  (forall i, i < n -> p (f i) = false) -> filter p (tab n f) = [].
Proof.
  induction n as [|n IH]; intros H; [reflexivity|].
  rewrite tab_S, filter_app, IH by (intros; apply H; lia).
  cbn. now rewrite H by lia.
Qed.

Lemma filter_tab_unique {T} (p : T -> bool) n (f : nat -> T) i0 :
  i0 < n -> (forall i, i < n -> p (f i) = (i =? i0)) ->
  filter p (tab n f) = [f i0].
Proof.
  induction n as [|n IH]; intros Hi H; [lia|].
  rewrite tab_S, filter_app. cbn [filter]. rewrite (H n) by lia.
  destruct (Nat.eqb_spec n i0) as [->|Hne].
  - rewrite filter_tab_none; [reflexivity|].
    intros i Hlt. rewrite H by lia. apply Nat.eqb_neq. lia.
  - rewrite IH; [apply app_nil_r | lia | intros; apply H; lia].
Qed.

Lemma filter_flat_map_none {A T} (p : T -> bool) (F : A -> list T) keys :
  (forall k, In k keys -> filter p (F k) = []) ->
  filter p (flat_map F keys) = [].
Proof.
  induction keys as [|k keys IH]; intros H; [reflexivity|].
  cbn [flat_map]. rewrite filter_app, H by now left.
  apply IH. intros; apply H; now right.
Qed.

Lemma filter_flat_map_unique {A T} (p : T -> bool) (F : A -> list T)
    keys k0 c :
  NoDup keys -> In k0 keys -> filter p (F k0) = [c] ->
  (forall k, In k keys -> k <> k0 -> filter p (F k) = []) ->
  filter p (flat_map F keys) = [c].
Proof.
  induction keys as [|k keys IH]; intros Hnd Hin Hc Hother; [easy|].
  inversion Hnd as [|? ? Hnotin Hnd']; subst.
  cbn [flat_map]. rewrite filter_app.
  destruct Hin as [-> | Hin].
  - rewrite Hc, filter_flat_map_none; [reflexivity|].
    intros k Hk. apply Hother; [now right | congruence].
  - rewrite Hother; [| now left | congruence].
    apply IH; try assumption. intros; apply Hother; [now right | assumption].
Qed.

Lemma filter_flat_map_length {A T} (p : T -> bool) (F : A -> list T) keys n :
  (forall k, In k keys -> List.length (filter p (F k)) = n) ->
  List.length (filter p (flat_map F keys)) = n * List.length keys.
Proof.
  induction keys as [|k keys IH]; intros H; [cbn; lia|].
  cbn [flat_map List.length]. rewrite filter_app, length_app, H by now left.
  rewrite IH by (intros; apply H; now right). lia.
Qed.

Lemma flat_map_length_const {A T} (F : A -> list T) keys n :
  (forall k, List.length (F k) = n) ->
  List.length (flat_map F keys) = n * List.length keys.
Proof.
  intros H. induction keys as [|k keys IH]; [cbn; lia|].
  cbn [flat_map List.length]. rewrite length_app, H, IH. lia.
Qed.

Lemma statevarkeys_NoDup : NoDup statevarkeys.
Proof.
  unfold statevarkeys.
  repeat (constructor; [cbn; intuition discriminate|]). constructor.
Qed.

Lemma is_var_true v e : is_var v e = true <-> e = Var v.
Proof.
  destruct e; cbn; try (split; discriminate).
  destruct (var_eq_dec v v0); split; congruence.
Qed.

Section Blocks.

Variables (shared : model).

Lemma on_global_link seg off key key' g i :
  on_global shared key g (link seg shared off key' i) = true
  <-> key' = key /\ g = off + i.
Proof.
  unfold on_global, link. cbn [rhs mk]. rewrite is_var_true. unfold elem.
  split; [intros [=]; auto | intros [-> ->]; reflexivity].
Qed.

Lemma on_local_link seg0 seg off key key' i i' :
  on_local seg0 key i (link seg shared off key' i') = true
  <-> seg = seg0 /\ key' = key /\ i' = i.
Proof.
  unfold on_local, link. cbn [lhs mk]. rewrite is_var_true. unfold elem.
  split; [intros [=]; auto | intros (-> & -> & ->); reflexivity].
Qed.

Lemma at_global_link seg off key i g :
  at_global shared g (link seg shared off key i) = (off + i =? g).
Proof.
  unfold at_global, link. cbn.
  destruct (model_eq_dec shared shared); [reflexivity | congruence].
Qed.

Lemma block_on_global seg off N key key' g :
  filter (on_global shared key g) (tab N (link seg shared off key'))
  = if string_dec key' key
    then if (off <=? g) && (g <? off + N)
         then [link seg shared off key (g - off)] else []
    else [].
Proof.
  destruct (string_dec key' key) as [->|Hne].
  - destruct (Nat.leb_spec off g); [destruct (Nat.ltb_spec g (off + N))|];
      cbn [andb].
    + apply filter_tab_unique; [lia|]. intros i Hi.
      destruct (Nat.eqb_spec i (g - off)) as [->|Hd].
      * apply on_global_link. split; [reflexivity | lia].
      * apply not_true_is_false. rewrite on_global_link. lia.
    + apply filter_tab_none. intros i Hi.
      apply not_true_is_false. rewrite on_global_link. lia.
    + apply filter_tab_none. intros i Hi.
      apply not_true_is_false. rewrite on_global_link. lia.
  - apply filter_tab_none. intros i Hi.
    apply not_true_is_false. rewrite on_global_link. tauto.
Qed.

Lemma block_on_local seg0 seg off N key key' i :
  filter (on_local seg0 key i) (tab N (link seg shared off key'))
  = if model_eq_dec seg seg0
    then if string_dec key' key
         then if i <? N then [link seg shared off key i] else []
         else []
    else [].
Proof.
  destruct (model_eq_dec seg seg0) as [->|Hs];
    [destruct (string_dec key' key) as [->|Hk];
      [destruct (Nat.ltb_spec i N)|]|].
  - apply filter_tab_unique; [lia|]. intros j Hj.
    destruct (Nat.eqb_spec j i) as [->|Hd].
    + now apply on_local_link.
    + apply not_true_is_false. rewrite on_local_link. tauto.
  - apply filter_tab_none. intros j Hj.
    apply not_true_is_false. rewrite on_local_link. lia.
  - apply filter_tab_none. intros j Hj.
    apply not_true_is_false. rewrite on_local_link. tauto.
  - apply filter_tab_none. intros j Hj.
    apply not_true_is_false. rewrite on_local_link. tauto.
Qed.

Lemma block_at_global seg off N key g :
  filter (at_global shared g) (tab N (link seg shared off key))
  = if (off <=? g) && (g <? off + N)
    then [link seg shared off key (g - off)] else [].
Proof.
  destruct (Nat.leb_spec off g); [destruct (Nat.ltb_spec g (off + N))|];
    cbn [andb].
  - apply filter_tab_unique; [lia|]. intros i Hi.
    rewrite at_global_link.
    destruct (Nat.eqb_spec (off + i) g), (Nat.eqb_spec i (g - off));
      try reflexivity; lia.
  - apply filter_tab_none. intros i Hi. rewrite at_global_link.
    apply Nat.eqb_neq. lia.
  - apply filter_tab_none. intros i Hi. rewrite at_global_link.
    apply Nat.eqb_neq. lia.
Qed.

End Blocks.

Ltac crunch_blocks :=
  repeat match goal with
  | |- context [string_dec ?a ?b] => destruct (string_dec a b)
  | |- context [model_eq_dec ?a ?b] => destruct (model_eq_dec a b)
  | |- context [Nat.leb ?a ?b] => destruct (Nat.leb_spec a b)
  | |- context [Nat.ltb ?a ?b] => destruct (Nat.ltb_spec a b)
  end;
  cbn [andb app List.length]; try congruence; try lia.

Section SimpleLinks.

Variables (cl cr es : model) (Nclimb Ncruise : nat).
Hypothesis segments_differ : cl <> cr.

Local Abbreviation cs := (simple_links cl cr es Nclimb Ncruise).

Lemma simple_links_length : List.length cs = 18 * (Nclimb + Ncruise).
Proof.
  unfold simple_links.
  rewrite flat_map_length_const with (n := Nclimb + Ncruise).
  - cbn [statevarkeys List.length]. lia.
  - intros k. now rewrite length_app, !tab_length.
Qed.

Lemma simple_links_at_global g :
  g < Nclimb + Ncruise ->
  List.length (filter (at_global es g) cs) = 18.
Proof.
  intros Hg. unfold simple_links.
  rewrite filter_flat_map_length with (n := 1); [reflexivity|].
  intros k _. rewrite filter_app, !block_at_global. crunch_blocks.
Qed.

Lemma simple_links_climb key i :
  In key statevarkeys -> i < Nclimb ->
  filter (on_global es key i) cs = [link cl es 0 key i]
  /\ filter (on_local cl key i) cs = [link cl es 0 key i].
Proof.
  intros Hk Hi. unfold simple_links. split.
  - apply filter_flat_map_unique with (k0 := key);
      auto using statevarkeys_NoDup; intros;
      rewrite filter_app, !block_on_global; crunch_blocks.
    now rewrite Nat.sub_0_r.
  - apply filter_flat_map_unique with (k0 := key);
      auto using statevarkeys_NoDup; intros;
      rewrite filter_app, !block_on_local; crunch_blocks.
Qed.

Lemma simple_links_cruise key j :
  In key statevarkeys -> j < Ncruise ->
  filter (on_global es key (Nclimb + j)) cs = [link cr es Nclimb key j]
  /\ filter (on_local cr key j) cs = [link cr es Nclimb key j].
Proof.
  intros Hk Hj. unfold simple_links. split.
  - apply filter_flat_map_unique with (k0 := key);
      auto using statevarkeys_NoDup; intros;
      rewrite filter_app, !block_on_global; crunch_blocks.
    cbn [app]. do 2 f_equal. lia.
  - apply filter_flat_map_unique with (k0 := key);
      auto using statevarkeys_NoDup; intros;
      rewrite filter_app, !block_on_local; crunch_blocks.
Qed.

End SimpleLinks.

Section TwoClimbLinks.

Variables (c1 c2 cr es : model) (Nclimb1 Nclimb2 Ncruise : nat).
Hypothesis differ12 : c1 <> c2.
Hypothesis differ1r : c1 <> cr.
Hypothesis differ2r : c2 <> cr.

Local Abbreviation cs :=
  (twoclimb_links c1 c2 cr es Nclimb1 Nclimb2 Ncruise).

Lemma twoclimb_links_length :
  List.length cs = 18 * (Nclimb1 + Nclimb2 + Ncruise).
Proof.
  unfold twoclimb_links.
  rewrite flat_map_length_const with (n := Nclimb1 + Nclimb2 + Ncruise).
  - cbn [statevarkeys List.length]. lia.
  - intros k. rewrite !length_app, !tab_length. lia.
Qed.

Lemma twoclimb_links_at_global g :
  g < Nclimb1 + Nclimb2 + Ncruise ->
  List.length (filter (at_global es g) cs) = 18.
Proof.
  intros Hg. unfold twoclimb_links.
  rewrite filter_flat_map_length with (n := 1); [reflexivity|].
  intros k _. rewrite !filter_app, !block_at_global. crunch_blocks.
Qed.

Lemma twoclimb_links_climb1 key i :
  In key statevarkeys -> i < Nclimb1 ->
  filter (on_global es key i) cs = [link c1 es 0 key i]
  /\ filter (on_local c1 key i) cs = [link c1 es 0 key i].
Proof.
  intros Hk Hi. unfold twoclimb_links. split.
  - apply filter_flat_map_unique with (k0 := key);
      auto using statevarkeys_NoDup; intros;
      rewrite !filter_app, !block_on_global; crunch_blocks.
    now rewrite Nat.sub_0_r.
  - apply filter_flat_map_unique with (k0 := key);
      auto using statevarkeys_NoDup; intros;
      rewrite !filter_app, !block_on_local; crunch_blocks.
Qed.

Lemma twoclimb_links_climb2 key j :
  In key statevarkeys -> j < Nclimb2 ->
  filter (on_global es key (Nclimb1 + j)) cs = [link c2 es Nclimb1 key j]
  /\ filter (on_local c2 key j) cs = [link c2 es Nclimb1 key j].
Proof.
  intros Hk Hj. unfold twoclimb_links. split.
  - apply filter_flat_map_unique with (k0 := key);
      auto using statevarkeys_NoDup; intros;
      rewrite !filter_app, !block_on_global; crunch_blocks.
    cbn [app]. do 2 f_equal. lia.
  - apply filter_flat_map_unique with (k0 := key);
      auto using statevarkeys_NoDup; intros;
      rewrite !filter_app, !block_on_local; crunch_blocks.
Qed.

Lemma twoclimb_links_cruise key j :
  In key statevarkeys -> j < Ncruise ->
  filter (on_global es key (Nclimb1 + Nclimb2 + j)) cs
    = [link cr es (Nclimb1 + Nclimb2) key j]
  /\ filter (on_local cr key j) cs = [link cr es (Nclimb1 + Nclimb2) key j].
Proof.
  intros Hk Hj. unfold twoclimb_links. split.
  - apply filter_flat_map_unique with (k0 := key);
      auto using statevarkeys_NoDup; intros;
      rewrite !filter_app, !block_on_global; crunch_blocks.
    cbn [app]. do 2 f_equal. lia.
  - apply filter_flat_map_unique with (k0 := key);
      auto using statevarkeys_NoDup; intros;
      rewrite !filter_app, !block_on_local; crunch_blocks.
Qed.

End TwoClimbLinks.

(** ** What an assembled mission contains *)

Ltac split_binds H :=
  repeat match type of H with
  | bind _ _ = inr _ =>
      let a := fresh "part" in
      let Ha := fresh "H" a in
      apply bind_inr in H as (a & Ha & H)
  end.

Ltac normalize H :=
  autorewrite with py in H; cbn [collect bind ret] in H.

(** Past the [Vectorize] blocks, for counts that are not zero. *)
Ltac enter H :=
  rewrite ?Vectorize_pos in H by lia; cbn [bind vectorization] in H.

Ltac find_item :=
  first [ left; reflexivity
        | apply In_tab; refine (ex_intro _ _ (conj _ eq_refl)); lia
        | right; find_item
        | apply in_or_app; left; find_item
        | apply in_or_app; right; find_item ].

Lemma leb_all_refl a b c :
  (a <=? a) && (b <=? b) && (c <=? c) = true.
Proof. now rewrite !Nat.leb_refl. Qed.

(** A segment of fewer than two points cannot be assembled: [Vectorize(0)]
    raises, and with one point [W_{start}[1:] == W_{end}[:-1]] compares
    empty slices. *)
Lemma simple_setup_raises ext Nclimb Ncruise :
  Nclimb < 2 \/ Ncruise < 2 ->
  Simple.Mission_setup ext Nclimb Ncruise = inl ValueError.
Proof.
  intros H. unfold Simple.Mission_setup.
  destruct Nclimb as [|[|n]]; destruct Ncruise as [|[|m]]; try lia;
    try reflexivity.
  all: rewrite ?Vectorize_pos by lia; cbn [bind vectorization].
  all: try reflexivity.
  all: rewrite simple_statelinking, leb_all_refl; cbn [bind].
  all: rewrite extend_nil; autorewrite with py; reflexivity.
Qed.

Lemma simple_two ext Nclimb Ncruise cs :
  Simple.Mission_setup ext Nclimb Ncruise = inr cs ->
  2 <= Nclimb /\ 2 <= Ncruise.
Proof.
  intros H.
  destruct (Nat.le_gt_cases 2 Nclimb), (Nat.le_gt_cases 2 Ncruise);
    try (split; assumption);
    rewrite simple_setup_raises in H by lia; discriminate.
Qed.

Lemma simple_pos ext Nclimb Ncruise cs :
  Simple.Mission_setup ext Nclimb Ncruise = inr cs ->
  0 < Nclimb /\ 0 < Ncruise.
Proof. intros H. destruct (simple_two _ _ _ H). lia. Qed.

Lemma simple_contains ext Nclimb Ncruise cs :
  Simple.Mission_setup ext Nclimb Ncruise = inr cs ->
  In (mk EQ (W_start climb 0) W_total) cs
  /\ In (mk EQ (W_end climb (Nclimb - 1)) (W_start cruise 0)) cs
  /\ (forall i, i < Nclimb ->
        In (set_tight (mk GE (W_start climb i)
                         (Add (W_end climb i) (W_burn climb i)))) cs)
  /\ (forall i, i < Ncruise ->
        In (set_tight (mk GE (W_start cruise i)
                         (Add (W_end cruise i) (W_burn cruise i)))) cs)
  /\ (forall i, S i < Nclimb ->
        In (mk EQ (W_start climb (S i)) (W_end climb i)) cs)
  /\ (forall i, S i < Ncruise ->
        In (mk EQ (W_start cruise (S i)) (W_end cruise i)) cs)
  /\ In (set_tight (mk LE W_dry (W_end cruise (Ncruise - 1)))) cs
  /\ (forall k, k < Ncruise -> In (mk EQ (hft cruise k) CruiseAlt) cs)
  /\ (forall i, S i < Nclimb ->
        In (set_tight (mk GE (hft climb (S i))
                         (Add (hft climb i) (dhft climb i)))) cs)
  /\ In (set_tight (mk GE (hft climb 0) (dhft climb 0))) cs
  /\ (forall k, k < Ncruise ->
        In (mk LE (hft climb (Nclimb - 1)) (hft cruise k)) cs)
  /\ In (mk EQ dhfthold (Div (hft cruise 0) (pyint Nclimb))) cs
  /\ (forall i, i < Nclimb -> In (mk EQ (dhft climb i) dhfthold) cs)
  /\ (forall k, k < Ncruise ->
        In (mk EQ (Rng k) (Div ReqRng (pyint Ncruise))) cs)
  /\ (forall i, i < Nclimb -> In (mk GE (RC climb i) RCmin) cs).
Proof.
  intros H. destruct (simple_two _ _ _ H) as [Hn Hm].
  unfold Simple.Mission_setup in H. enter H.
  split_binds H. clear Hpart Hpart1 Hpart2.
  rewrite extend_nil in Hpart0. normalize Hpart0.
  injection Hpart0 as <-. injection H as <-.
  repeat split; intros; find_item.
Qed.

Lemma twoclimb_setup_raises ext Nclimb1 Nclimb2 Ncruise :
  Nclimb1 < 2 \/ Nclimb2 < 2 \/ Ncruise < 2 ->
  TwoClimb.Mission_setup ext Nclimb1 Nclimb2 Ncruise = inl ValueError.
Proof.
  intros H. unfold TwoClimb.Mission_setup.
  destruct Nclimb1 as [|[|n1]]; destruct Nclimb2 as [|[|n2]];
    destruct Ncruise as [|[|m]]; try lia; try reflexivity.
  all: rewrite ?Vectorize_pos by lia; cbn [bind vectorization].
  all: try reflexivity.
  all: rewrite twoclimb_statelinking, !Nat.leb_refl; cbn [andb bind].
  all: rewrite extend_nil; autorewrite with py; reflexivity.
Qed.

Lemma twoclimb_two ext Nclimb1 Nclimb2 Ncruise cs :
  TwoClimb.Mission_setup ext Nclimb1 Nclimb2 Ncruise = inr cs ->
  2 <= Nclimb1 /\ 2 <= Nclimb2 /\ 2 <= Ncruise.
Proof.
  intros H.
  destruct (Nat.le_gt_cases 2 Nclimb1), (Nat.le_gt_cases 2 Nclimb2),
    (Nat.le_gt_cases 2 Ncruise);
    try (repeat split; assumption);
    rewrite twoclimb_setup_raises in H by lia; discriminate.
Qed.

Lemma twoclimb_pos ext Nclimb1 Nclimb2 Ncruise cs :
  TwoClimb.Mission_setup ext Nclimb1 Nclimb2 Ncruise = inr cs ->
  0 < Nclimb1 /\ 0 < Nclimb2 /\ 0 < Ncruise.
Proof. intros H. destruct (twoclimb_two _ _ _ _ H) as (? & ? & ?). lia. Qed.

Lemma twoclimb_contains ext Nclimb1 Nclimb2 Ncruise cs :
  TwoClimb.Mission_setup ext Nclimb1 Nclimb2 Ncruise = inr cs ->
  In (mk EQ (W_start climb1 0) W_total) cs
  /\ In (mk EQ (W_end climb1 (Nclimb1 - 1)) (W_start climb2 0)) cs
  /\ In (mk EQ (W_end climb2 (Nclimb2 - 1)) (W_start cruise 0)) cs
  /\ (forall i, i < Nclimb1 ->
        In (set_tight (mk GE (W_start climb1 i)
                         (Add (W_end climb1 i) (W_burn climb1 i)))) cs)
  /\ (forall i, i < Nclimb2 ->
        In (set_tight (mk GE (W_start climb2 i)
                         (Add (W_end climb2 i) (W_burn climb2 i)))) cs)
  /\ (forall i, i < Ncruise ->
        In (set_tight (mk GE (W_start cruise i)
                         (Add (W_end cruise i) (W_burn cruise i)))) cs)
  /\ (forall i, S i < Nclimb1 ->
        In (mk EQ (W_start climb1 (S i)) (W_end climb1 i)) cs)
  /\ (forall i, S i < Nclimb2 ->
        In (mk EQ (W_start climb2 (S i)) (W_end climb2 i)) cs)
  /\ (forall i, S i < Ncruise ->
        In (mk EQ (W_start cruise (S i)) (W_end cruise i)) cs)
  /\ In (set_tight (mk LE W_dry (W_end cruise (Ncruise - 1)))) cs
  /\ In (mk EQ (hft cruise 0) CruiseAlt) cs
  /\ (forall i, S i < Ncruise ->
        In (mk SIGEQ (hft cruise (S i)) (Add (hft cruise i) dhftholdcr)) cs)
  /\ (forall i, S i < Nclimb2 ->
        In (set_tight (mk LE (hft climb2 (S i))
                         (Add (hft climb2 i) dhftholdcl2))) cs)
  /\ In (set_tight (mk LE (hft climb2 0)
                      (Add dhftholdcl2 (Qty 10000 "ft")))) cs
  /\ (forall k, k < Ncruise ->
        In (mk EQ (hft climb2 (Nclimb2 - 1)) (hft cruise k)) cs)
  /\ (forall i, S i < Nclimb1 ->
        In (set_tight (mk GE (hft climb1 (S i))
                         (Add (hft climb1 i) dhftholdcl1))) cs)
  /\ In (set_tight (mk EQ (hft climb1 0) (dhft climb1 0))) cs
  /\ In (mk EQ (hft climb1 (Nclimb1 - 1)) (Qty 10000 "ft")) cs
  /\ (forall k, k < Ncruise ->
        In (mk GE dhftholdcl2
              (Div (Sub (hft cruise k) (Qty 10000 "ft")) (pyint Nclimb2))) cs)
  /\ (forall i, i < Nclimb2 -> In (mk EQ dhftholdcl2 (dhft climb2 i)) cs)
  /\ In (mk EQ dhftholdcl1 (Div (Qty 10000 "ft") (pyint Nclimb1))) cs
  /\ (forall i, i < Nclimb1 -> In (mk EQ dhftholdcl1 (dhft climb1 i)) cs)
  /\ (forall k, k < Ncruise -> In (mk EQ (dhft cruise k) dhftholdcr) cs)
  /\ In (mk GE (Add (Add (total cruise "RngCruise" Ncruise)
                         (total climb2 "RngClimb" Nclimb2))
                    (total climb1 "RngClimb" Nclimb1))
               ReqRng) cs.
Proof.
  intros H. destruct (twoclimb_two _ _ _ _ H) as (Hn1 & Hn2 & Hm).
  unfold TwoClimb.Mission_setup in H. enter H.
  split_binds H. clear Hpart Hpart1 Hpart2 Hpart3.
  rewrite extend_nil in Hpart0. normalize Hpart0.
  injection Hpart0 as <-. injection H as <-.
  repeat split; intros; find_item.
Qed.

(** ** Checking feasibility by evaluation *)

Lemma satb_sound uconv rho c : satb uconv rho c = true -> sat uconv rho c.
Proof.
  unfold satb, sat. destruct (op c); intros H;
    first [ now apply Qeq_bool_iff | now apply Qle_bool_iff ].
Qed.

Lemma sat_all_forallb uconv rho cs :
  forallb (satb uconv rho) cs = true -> sat_all uconv rho cs.
Proof.
  intros H c Hc. apply satb_sound.
  rewrite forallb_forall in H. now apply H.
Qed.

(** ** Weight chaining *)

(** C3.  In every assembled Mission, of either variant, the constraint set
    contains the weight chain: the first climb sub-point starts at
    [W_{total}]; the last end weight of each segment equals the first start
    weight of the next segment; inside every segment
    [W_{start}[i+1] == W_{end}[i]]; and (inside [TCS]) [W_{dry}] is at most
    the last cruise end weight. *)
Theorem weight_chaining :
  (forall ext Nclimb Ncruise cs,
     Simple.Mission_setup ext Nclimb Ncruise = inr cs ->
     In (mk EQ (W_start climb 0) W_total) cs
     /\ In (mk EQ (W_end climb (Nclimb - 1)) (W_start cruise 0)) cs
     /\ (forall i, S i < Nclimb ->
           In (mk EQ (W_start climb (S i)) (W_end climb i)) cs)
     /\ (forall i, S i < Ncruise ->
           In (mk EQ (W_start cruise (S i)) (W_end cruise i)) cs)
     /\ In (Constraint true W_dry LE (W_end cruise (Ncruise - 1))) cs)
  /\
  (forall ext Nclimb1 Nclimb2 Ncruise cs,
     TwoClimb.Mission_setup ext Nclimb1 Nclimb2 Ncruise = inr cs ->
     In (mk EQ (W_start climb1 0) W_total) cs
     /\ In (mk EQ (W_end climb1 (Nclimb1 - 1)) (W_start climb2 0)) cs
     /\ In (mk EQ (W_end climb2 (Nclimb2 - 1)) (W_start cruise 0)) cs
     /\ (forall i, S i < Nclimb1 ->
           In (mk EQ (W_start climb1 (S i)) (W_end climb1 i)) cs)
     /\ (forall i, S i < Nclimb2 ->
           In (mk EQ (W_start climb2 (S i)) (W_end climb2 i)) cs)
     /\ (forall i, S i < Ncruise ->
           In (mk EQ (W_start cruise (S i)) (W_end cruise i)) cs)
     /\ In (Constraint true W_dry LE (W_end cruise (Ncruise - 1))) cs).
Proof.
  split.
  - intros ext Nclimb Ncruise cs H.
    pose proof (simple_contains _ _ _ H) as F. tauto.
  - intros ext Nclimb1 Nclimb2 Ncruise cs H.
    pose proof (twoclimb_contains _ _ _ _ H) as F. tauto.
Qed.

Lemma weight_chaining_witness :
  (exists cs, Simple.Mission_setup no_submodels 2 2 = inr cs
     /\ In (mk EQ (W_end climb 1) (W_start cruise 0)) cs
     /\ In (mk EQ (W_start climb 1) (W_end climb 0)) cs)
  /\
  (exists cs, TwoClimb.Mission_setup no_submodels 2 2 2 = inr cs
     /\ In (mk EQ (W_end climb2 1) (W_start cruise 0)) cs
     /\ In (mk EQ (W_start cruise 1) (W_end cruise 0)) cs).
Proof.
  split.
  - eexists. split; [reflexivity|].
    destruct (proj1 weight_chaining no_submodels 2 2 _ eq_refl)
      as (_ & H2 & H3 & _).
    split; [exact H2 | apply H3; lia].
  - eexists. split; [reflexivity|].
    destruct (proj2 weight_chaining no_submodels 2 2 2 _ eq_refl)
      as (_ & _ & H3 & _ & _ & H6 & _).
    split; [exact H3 | apply H6; lia].
Defined.

(** ** Altitude chaining in the two-climb variant *)

(** C5.  In the two-climb-segment Mission the last altitude of the first
    climb segment is fixed at 10,000 ft, the last altitude of the second
    climb segment equals the first cruise altitude, and the first cruise
    altitude equals [CruiseAlt]. *)
Theorem twoclimb_altitude_chaining :
  forall ext Nclimb1 Nclimb2 Ncruise cs,
    TwoClimb.Mission_setup ext Nclimb1 Nclimb2 Ncruise = inr cs ->
    In (mk EQ (hft climb1 (Nclimb1 - 1)) (Qty 10000 "ft")) cs
    /\ In (mk EQ (hft climb2 (Nclimb2 - 1)) (hft cruise 0)) cs
    /\ In (mk EQ (hft cruise 0) CruiseAlt) cs.
Proof.
  intros ext Nclimb1 Nclimb2 Ncruise cs H.
  destruct (twoclimb_pos _ _ _ _ H) as (_ & _ & Hm).
  pose proof (twoclimb_contains _ _ _ _ H) as F.
  repeat split; try tauto.
  now apply F.
Qed.

Lemma twoclimb_altitude_chaining_witness :
  exists cs, TwoClimb.Mission_setup no_submodels 2 3 2 = inr cs
    /\ In (mk EQ (hft climb1 1) (Qty 10000 "ft")) cs
    /\ In (mk EQ (hft climb2 2) (hft cruise 0)) cs
    /\ In (mk EQ (hft cruise 0) CruiseAlt) cs.
Proof.
  eexists. split; [reflexivity|].
  exact (twoclimb_altitude_chaining no_submodels 2 3 2 eq_refl).
Defined.

(** ** Range requirement *)

Lemma vars_sum v m key n e0 :
  In v (vars (fold_left Add (tab n (elem m key)) e0)) ->
  In v (vars e0) \/ exists i, v = VarKey m key (Some i).
Proof.
  revert e0. induction n as [|n IH]; intros e0 H; [now left|].
  rewrite tab_S, fold_left_app in H. cbn [fold_left vars] in H.
  apply in_app_or in H as [H | H].
  - now apply IH.
  - right. destruct H as [<- | []]. eauto.
Qed.

Ltac scan H :=
  repeat first
    [ apply In_tab in H; destruct H as (? & ? & ->)
    | apply in_app_or in H; destruct H as [H | H]
    | destruct H as [<- | H]
    | destruct H ].

Ltac no_mention Hm :=
  exfalso; unfold constraint_vars in Hm;
  cbn [lhs rhs set_tight mk vars app] in Hm;
  repeat (apply in_app_or in Hm; destruct Hm as [Hm | Hm]);
  try (apply vars_sum in Hm; destruct Hm as [Hm | (? & Hm)]);
  cbn in Hm; unfold RCmin_var, ReqRng_var in Hm; intuition discriminate.

(** Of what the two-climb [Mission.setup] and its [StateLinking] build,
    only the range inequality mentions [ReqRng]. *)
Lemma twoclimb_ReqRng_once ext Nclimb1 Nclimb2 Ncruise cs :
  TwoClimb.Mission_setup ext Nclimb1 Nclimb2 Ncruise = inr cs ->
  forall c, In c cs -> In ReqRng_var (constraint_vars c) ->
    c = twoclimb_range_requirement Nclimb1 Nclimb2 Ncruise
    \/ In c (Aircraft ext (Nclimb1 + Nclimb2) Ncruise)
    \/ In c (ClimbSegment ext climb1 Nclimb1)
    \/ In c (ClimbSegment ext climb2 Nclimb2)
    \/ In c (CruiseClimbSegment ext Ncruise)
    \/ In c (FlightState ext (Nclimb1 + Nclimb2 + Ncruise)).
Proof.
  intros H c Hc Hmen.
  destruct (twoclimb_two _ _ _ _ H) as (Hn1 & Hn2 & Hm).
  unfold TwoClimb.Mission_setup in H. enter H.
  split_binds H.
  rewrite twoclimb_statelinking in Hpart.
  rewrite !Nat.leb_refl in Hpart. cbn [andb] in Hpart.
  rewrite extend_nil in Hpart0.
  normalize Hpart0. normalize Hpart1. normalize Hpart2. normalize Hpart3.
  injection Hpart0 as <-. injection Hpart1 as <-. injection Hpart2 as <-.
  injection Hpart3 as <-. injection Hpart as <-. injection H as <-.
  unfold twoclimb_links in Hc.
  scan Hc.
  all: try tauto.
  all: try (left; reflexivity).
  all: no_mention Hmen.
Qed.

(** Of what the simple [Mission.setup] and its [StateLinking] build, only
    the quotas of the cruise sub-segments mention [ReqRng]. *)
Lemma simple_ReqRng_quotas ext Nclimb Ncruise cs :
  Simple.Mission_setup ext Nclimb Ncruise = inr cs ->
  forall c, In c cs -> In ReqRng_var (constraint_vars c) ->
    (exists k, k < Ncruise /\ c = simple_range_quota Ncruise k)
    \/ In c (Aircraft ext Nclimb Ncruise)
    \/ In c (ClimbSegment ext climb Nclimb)
    \/ In c (CruiseSegment ext Ncruise)
    \/ In c (FlightState ext (Nclimb + Ncruise)).
Proof.
  intros H c Hc Hmen.
  destruct (simple_two _ _ _ H) as (Hn & Hm).
  unfold Simple.Mission_setup in H. enter H.
  split_binds H.
  rewrite simple_statelinking, leb_all_refl in Hpart.
  rewrite extend_nil in Hpart0.
  normalize Hpart0. normalize Hpart1. normalize Hpart2.
  injection Hpart0 as <-. injection Hpart1 as <-. injection Hpart2 as <-.
  injection Hpart as <-. injection H as <-.
  unfold simple_links in Hc.
  scan Hc.
  all: try tauto.
  all: try (left; match goal with
                  | Hk : ?k < _ |- _ =>
                      exists k; split; [exact Hk | reflexivity]
                  end).
  all: no_mention Hmen.
Qed.

(** C7.  The two-climb variant has one inequality requiring the sum of the
    cruise, climb-2 and climb-1 downrange contributions to be at least
    [ReqRng], and it is the only constraint built by [Mission.setup] and
    [StateLinking] that mentions [ReqRng]: there is no quota per segment.
    The simple variant sets the range of every cruise sub-segment equal to
    [ReqRng / Ncruise], and these equalities, which hold no climb variable,
    are the only constraints it builds that mention [ReqRng]. *)
Theorem range_requirement :
  (forall ext Nclimb1 Nclimb2 Ncruise cs,
     TwoClimb.Mission_setup ext Nclimb1 Nclimb2 Ncruise = inr cs ->
     In (mk GE (Add (Add (total cruise "RngCruise" Ncruise)
                         (total climb2 "RngClimb" Nclimb2))
                    (total climb1 "RngClimb" Nclimb1))
               ReqRng) cs
     /\ forall c, In c cs -> In ReqRng_var (constraint_vars c) ->
          c = twoclimb_range_requirement Nclimb1 Nclimb2 Ncruise
          \/ In c (Aircraft ext (Nclimb1 + Nclimb2) Ncruise)
          \/ In c (ClimbSegment ext climb1 Nclimb1)
          \/ In c (ClimbSegment ext climb2 Nclimb2)
          \/ In c (CruiseClimbSegment ext Ncruise)
          \/ In c (FlightState ext (Nclimb1 + Nclimb2 + Ncruise)))
  /\
  (forall ext Nclimb Ncruise cs,
     Simple.Mission_setup ext Nclimb Ncruise = inr cs ->
     (forall k, k < Ncruise ->
        In (mk EQ (Rng k) (Div ReqRng (pyint Ncruise))) cs)
     /\ forall c, In c cs -> In ReqRng_var (constraint_vars c) ->
          (exists k, k < Ncruise /\ c = simple_range_quota Ncruise k)
          \/ In c (Aircraft ext Nclimb Ncruise)
          \/ In c (ClimbSegment ext climb Nclimb)
          \/ In c (CruiseSegment ext Ncruise)
          \/ In c (FlightState ext (Nclimb + Ncruise))).
Proof.
  split.
  - intros ext Nclimb1 Nclimb2 Ncruise cs H. split.
    + pose proof (twoclimb_contains _ _ _ _ H) as F. tauto.
    + exact (twoclimb_ReqRng_once _ _ _ _ H).
  - intros ext Nclimb Ncruise cs H. split.
    + pose proof (simple_contains _ _ _ H) as F. tauto.
    + exact (simple_ReqRng_quotas _ _ _ H).
Qed.

Lemma range_requirement_witness :
  (exists cs, TwoClimb.Mission_setup no_submodels 2 2 2 = inr cs
     /\ In (twoclimb_range_requirement 2 2 2) cs
     /\ forall c, In c cs -> In ReqRng_var (constraint_vars c) ->
          c = twoclimb_range_requirement 2 2 2)
  /\
  (exists cs, Simple.Mission_setup no_submodels 2 2 = inr cs
     /\ In (simple_range_quota 2 1) cs
     /\ forall c, In c cs -> In ReqRng_var (constraint_vars c) ->
          c = simple_range_quota 2 0 \/ c = simple_range_quota 2 1).
Proof.
  split.
  - eexists. split; [reflexivity|].
    destruct (proj1 range_requirement no_submodels 2 2 2 _ eq_refl)
      as [Hin Honly].
    split; [exact Hin|].
    intros c Hc Hmen.
    destruct (Honly c Hc Hmen) as [E | [F | [F | [F | [F | F]]]]];
      [exact E | destruct F ..].
  - eexists. split; [reflexivity|].
    destruct (proj2 range_requirement no_submodels 2 2 _ eq_refl)
      as [Hin Honly].
    split; [apply Hin; lia|].
    intros c Hc Hmen.
    destruct (Honly c Hc Hmen) as [(k & Hk & E) | [F | [F | [F | F]]]];
      [| destruct F ..].
    destruct k as [|[|k]]; [now left | now right | lia].
Defined.

(** ** Cruise-climb altitude steps *)

(** C8.  In the two-climb variant every pair of successive cruise altitudes
    is tied by a [SignomialEquality], [hftCruise[i+1]] against
    [hftCruise[i] + dhftholdcr], for every [i < Ncruise - 1]; the cruise
    segment's own step variable is set equal to [dhftholdcr]; so every
    feasible assignment has the step as an equality, in both directions. *)
Theorem cruise_climb_signomial_equality :
  forall ext Nclimb1 Nclimb2 Ncruise cs,
    TwoClimb.Mission_setup ext Nclimb1 Nclimb2 Ncruise = inr cs ->
    (forall i, i < Ncruise - 1 ->
       In (Constraint false (hft cruise (S i)) SIGEQ
             (Add (hft cruise i) dhftholdcr)) cs)
    /\ (forall k, k < Ncruise -> In (mk EQ (dhft cruise k) dhftholdcr) cs)
    /\ (forall uconv rho, sat_all uconv rho cs ->
          forall i, i < Ncruise - 1 ->
            (eval uconv rho (hft cruise (S i))
             == eval uconv rho (hft cruise i) + eval uconv rho (dhft cruise i))%Q).
Proof.
  intros ext Nclimb1 Nclimb2 Ncruise cs H.
  pose proof (twoclimb_contains _ _ _ _ H) as F.
  assert (Hsig : forall i, i < Ncruise - 1 ->
            In (Constraint false (hft cruise (S i)) SIGEQ
                  (Add (hft cruise i) dhftholdcr)) cs).
  { intros i Hi. apply F. lia. }
  assert (Hstep : forall k, k < Ncruise ->
            In (mk EQ (dhft cruise k) dhftholdcr) cs) by apply F.
  repeat split; try assumption.
  intros uconv rho Hsat i Hi.
  pose proof (Hsat _ (Hsig i Hi)) as E1.
  pose proof (Hsat _ (Hstep i ltac:(lia))) as E2.
  unfold sat in E1, E2. cbn in E1, E2 |- *. lra.
Qed.

Lemma cruise_climb_signomial_equality_witness :
  (exists cs, TwoClimb.Mission_setup no_submodels 2 2 3 = inr cs
     /\ In (Constraint false (hft cruise 2) SIGEQ
              (Add (hft cruise 1) dhftholdcr)) cs
     /\ In (mk EQ (dhft cruise 2) dhftholdcr) cs)
  /\ (eval unit_one (rho_two 10000) (hft cruise 1)
      == eval unit_one (rho_two 10000) (hft cruise 0)
         + eval unit_one (rho_two 10000) (dhft cruise 0))%Q.
Proof.
  split.
  - eexists. split; [reflexivity|].
    destruct (cruise_climb_signomial_equality no_submodels 2 2 3 eq_refl)
      as (Hsig & Hstep & _).
    split; [apply Hsig | apply Hstep]; lia.
  - assert (Hsat : exists cs,
              TwoClimb.Mission_setup no_submodels 2 2 2 = inr cs
              /\ sat_all unit_one (rho_two 10000) cs).
    { eexists. split; [reflexivity|].
      apply sat_all_forallb. vm_compute. reflexivity. }
    destruct Hsat as (cs & H & Hsat).
    destruct (cruise_climb_signomial_equality no_submodels 2 2 2 H)
      as (_ & _ & Hsem).
    apply (Hsem unit_one (rho_two 10000) Hsat). lia.
Defined.

(** ** Weight depletion *)

Lemma strictly_decreasing_app l1 l2 :
  strictly_decreasing l1 -> strictly_decreasing l2 ->
  (forall pre a b, l1 = pre ++ [a] -> hd_error l2 = Some b -> (b < a)%Q) ->
  strictly_decreasing (l1 ++ l2).
Proof.
  induction l1 as [|a l1 IH]; intros H1 H2 Hb; [exact H2|].
  destruct l1 as [|a' l1].
  - destruct l2 as [|b l2]; [exact I|].
    cbn. split; [now apply (Hb [] a b) | exact H2].
  - destruct H1 as [Hlt H1]. cbn [app]. split; [exact Hlt|].
    apply IH; try assumption.
    intros pre x b E Hhd. apply (Hb (a :: pre) x b); [|assumption].
    cbn [app]. now rewrite E.
Qed.

Lemma strictly_decreasing_tab n (f : nat -> Q) :
  (forall i, S i < n -> (f (S i) < f i)%Q) ->
  strictly_decreasing (tab n f).
Proof.
  unfold tab.
  enough (G : forall a, (forall i, a <= i -> S i < a + n -> (f (S i) < f i)%Q) ->
                        strictly_decreasing (map f (seq a n))).
  { intros H. apply G. intros i _ Hi. apply H. lia. }
  induction n as [|n IH]; intros a H; [exact I|].
  destruct n as [|n]; [exact I|].
  cbn [seq map strictly_decreasing]. split.
  - apply H; lia.
  - apply (IH (S a)). intros i H1 H2. apply H; lia.
Qed.

Lemma tab_last {T} n (f : nat -> T) pre a :
  tab n f = pre ++ [a] -> 0 < n /\ a = f (n - 1).
Proof.
  destruct n as [|n].
  - intros E. destruct pre; discriminate.
  - rewrite tab_S. intros E. apply app_inj_tail in E as [_ <-].
    split; [lia | f_equal; lia].
Qed.

Lemma hd_error_tab {T} n (f : nat -> T) a :
  hd_error (tab n f) = Some a -> 0 < n /\ a = f 0.
Proof.
  destruct n as [|n]; [discriminate|].
  intros [= <-]. split; [lia | reflexivity].
Qed.

Section Depletion.

Variables (uconv : string -> Q) (rho : var -> Q).
Variable cs : list constraint.
Hypothesis feasible : sat_all uconv rho cs.

Local Abbreviation value := (eval uconv rho).

(** Inside one segment the burn inequality and the continuity equality
    make the start weights decrease. *)
Lemma segment_depletes seg n :
  (forall i, i < n ->
     In (set_tight (mk GE (W_start seg i)
                      (Add (W_end seg i) (W_burn seg i)))) cs) ->
  (forall i, S i < n -> In (mk EQ (W_start seg (S i)) (W_end seg i)) cs) ->
  (forall i, i < n -> (0 < value (W_burn seg i))%Q) ->
  strictly_decreasing (map value (vec seg "W_{start}" n)).
Proof.
  intros Hburn Hcont Hpos. unfold vec. rewrite map_tab.
  apply strictly_decreasing_tab. intros i Hi.
  pose proof (feasible _ (Hburn i ltac:(lia))) as E1.
  pose proof (feasible _ (Hcont i Hi)) as E2.
  pose proof (Hpos i ltac:(lia)) as E3.
  unfold sat in E1, E2. cbn in E1, E2, E3 |- *. lra.
Qed.

(** Across a boundary the last start weight of a segment exceeds the first
    start weight of the next. *)
Lemma boundary_depletes seg next n :
  0 < n ->
  In (set_tight (mk GE (W_start seg (n - 1))
                   (Add (W_end seg (n - 1)) (W_burn seg (n - 1))))) cs ->
  In (mk EQ (W_end seg (n - 1)) (W_start next 0)) cs ->
  (0 < value (W_burn seg (n - 1)))%Q ->
  (value (W_start next 0) < value (W_start seg (n - 1)))%Q.
Proof.
  intros Hn Hburn Hchain Hpos.
  pose proof (feasible _ Hburn) as E1.
  pose proof (feasible _ Hchain) as E2.
  unfold sat in E1, E2. cbn in E1, E2, Hpos |- *. lra.
Qed.

End Depletion.

(** C9.  For every assignment that satisfies the constraints of an assembled
    Mission (either variant) and gives every [W_{burn}] a positive value,
    the start weights strictly decrease from each sub-point to the next
    along the whole mission, across the segment boundaries too. *)
Theorem start_weight_strictly_decreasing :
  (forall ext Nclimb Ncruise cs uconv rho,
     Simple.Mission_setup ext Nclimb Ncruise = inr cs ->
     sat_all uconv rho cs ->
     (forall i, i < Nclimb -> (0 < eval uconv rho (W_burn climb i))%Q) ->
     (forall i, i < Ncruise -> (0 < eval uconv rho (W_burn cruise i))%Q) ->
     strictly_decreasing
       (map (eval uconv rho) (simple_W_start_profile Nclimb Ncruise)))
  /\
  (forall ext Nclimb1 Nclimb2 Ncruise cs uconv rho,
     TwoClimb.Mission_setup ext Nclimb1 Nclimb2 Ncruise = inr cs ->
     sat_all uconv rho cs ->
     (forall i, i < Nclimb1 -> (0 < eval uconv rho (W_burn climb1 i))%Q) ->
     (forall i, i < Nclimb2 -> (0 < eval uconv rho (W_burn climb2 i))%Q) ->
     (forall i, i < Ncruise -> (0 < eval uconv rho (W_burn cruise i))%Q) ->
     strictly_decreasing
       (map (eval uconv rho)
            (twoclimb_W_start_profile Nclimb1 Nclimb2 Ncruise))).
Proof.
  split.
  - intros ext Nclimb Ncruise cs uconv rho H Hsat Hb1 Hb2.
    destruct (simple_pos _ _ _ H) as [Hn Hm].
    destruct (simple_contains _ _ _ H)
      as (_ & Hchain & Hburn1 & Hburn2 & Hcont1 & Hcont2 & _).
    unfold simple_W_start_profile. rewrite map_app.
    apply strictly_decreasing_app.
    + now apply segment_depletes with (cs := cs).
    + now apply segment_depletes with (cs := cs).
    + intros pre a b Ha Hb. unfold vec in Ha, Hb. rewrite map_tab in Ha, Hb.
      apply tab_last in Ha as [_ ->].
      apply hd_error_tab in Hb as [_ ->].
      apply boundary_depletes with (cs := cs);
        [assumption | lia | apply Hburn1; lia | assumption | apply Hb1; lia].
  - intros ext Nclimb1 Nclimb2 Ncruise cs uconv rho H Hsat Hb1 Hb2 Hb3.
    destruct (twoclimb_pos _ _ _ _ H) as (Hn1 & Hn2 & Hm).
    destruct (twoclimb_contains _ _ _ _ H)
      as (_ & Hchain1 & Hchain2 & Hburn1 & Hburn2 & Hburn3
          & Hcont1 & Hcont2 & Hcont3 & _).
    unfold twoclimb_W_start_profile. rewrite !map_app.
    apply strictly_decreasing_app.
    + now apply segment_depletes with (cs := cs).
    + apply strictly_decreasing_app.
      * now apply segment_depletes with (cs := cs).
      * now apply segment_depletes with (cs := cs).
      * intros pre a b Ha Hb. unfold vec in Ha, Hb. rewrite map_tab in Ha, Hb.
        apply tab_last in Ha as [_ ->].
        apply hd_error_tab in Hb as [_ ->].
        apply boundary_depletes with (cs := cs);
          [assumption | lia | apply Hburn2; lia | assumption | apply Hb2; lia].
    + intros pre a b Ha Hb. unfold vec in Ha, Hb.
      rewrite map_tab in Ha. apply tab_last in Ha as [_ ->].
      destruct Nclimb2 as [|n2]; [lia|].
      cbn in Hb. injection Hb as <-.
      apply boundary_depletes with (cs := cs);
        [assumption | lia | apply Hburn1; lia | assumption | apply Hb1; lia].
Qed.

Lemma start_weight_strictly_decreasing_witness :
  strictly_decreasing
    (map (eval unit_one (rho_example 2)) (simple_W_start_profile 2 2))
  /\ strictly_decreasing
       (map (eval unit_one (rho_two 10000)) (twoclimb_W_start_profile 2 2 2)).
Proof.
  split.
  - apply (proj1 start_weight_strictly_decreasing no_submodels 2 2 _
             unit_one (rho_example 2) eq_refl).
    + apply sat_all_forallb. vm_compute. reflexivity.
    + intros i Hi. vm_compute. reflexivity.
    + intros i Hi. vm_compute. reflexivity.
  - apply (proj2 start_weight_strictly_decreasing no_submodels 2 2 2 _
             unit_one (rho_two 10000) eq_refl).
    + apply sat_all_forallb. vm_compute. reflexivity.
    + intros i Hi. vm_compute. reflexivity.
    + intros i Hi. vm_compute. reflexivity.
    + intros i Hi. vm_compute. reflexivity.
Defined.

(** ** Climb and cruise altitude in the simple variant *)

Lemma inject_nat_succ n :
  (inject_Z (Z.of_nat (S n)) == inject_Z (Z.of_nat n) + 1)%Q.
Proof. rewrite Nat2Z.inj_succ. unfold Z.succ. now rewrite inject_Z_plus. Qed.

Lemma inject_nat_pos n : 0 < n -> (0 < inject_Z (Z.of_nat n))%Q.
Proof.
  intros H. change 0%Q with (inject_Z 0). rewrite <- Zlt_Qlt. lia.
Qed.

(** The altitude constraints alone force the climb to end at the cruise
    altitude: the steps add up to [Nclimb * (hftCruise[0] / Nclimb)] from
    below and [hftClimb[-1] <= hftCruise] bounds from above. *)
Lemma simple_final_climb_altitude ext Nclimb Ncruise cs uconv rho :
  Simple.Mission_setup ext Nclimb Ncruise = inr cs ->
  (forall c, In c cs -> altitude_constraint c = true -> sat uconv rho c) ->
  (eval uconv rho (hft climb (Nclimb - 1)) == eval uconv rho CruiseAlt)%Q.
Proof.
  intros H Hsat.
  destruct (simple_pos _ _ _ H) as [Hn Hm].
  destruct (simple_contains _ _ _ H)
    as (_ & _ & _ & _ & _ & _ & _ & Hcr & Hstep & Hfirst & Hupper & Hhold
        & Hdh & _).
  pose proof (Hsat _ (Hcr 0 Hm) eq_refl) as Ecr.
  pose proof (Hsat _ Hfirst eq_refl) as Efirst.
  pose proof (Hsat _ (Hupper 0 Hm) eq_refl) as Eupper.
  pose proof (Hsat _ Hhold eq_refl) as Ehold.
  unfold sat in Ecr, Efirst, Eupper, Ehold.
  cbn in Ecr, Efirst, Eupper, Ehold |- *.
  set (d := rho (VarKey Mission "dhfthold" None)) in *.
  set (h := rho (VarKey cruise "hft" (Some 0))) in *.
  set (n := inject_Z (Z.of_nat Nclimb)) in *.
  assert (Hnpos : (0 < n)%Q) by now apply inject_nat_pos.
  assert (Hdh' : forall i, i < Nclimb ->
            (rho (VarKey climb "dhft" (Some i)) == d)%Q).
  { intros i Hi. exact (Hsat _ (Hdh i Hi) eq_refl). }
  assert (Hsum : forall i, i < Nclimb ->
            (inject_Z (Z.of_nat (S i)) * d
             <= rho (VarKey climb "hft" (Some i)))%Q).
  { induction i as [|i IH]; intros Hi.
    - pose proof (Hdh' 0 Hi) as E0.
      change (inject_Z (Z.of_nat 1)) with 1%Q. lra.
    - pose proof (Hsat _ (Hstep i Hi) eq_refl) as Es.
      unfold sat in Es. cbn in Es.
      pose proof (Hdh' i ltac:(lia)) as Ei.
      specialize (IH ltac:(lia)).
      rewrite inject_nat_succ. lra. }
  specialize (Hsum (Nclimb - 1) ltac:(lia)).
  replace (S (Nclimb - 1)) with Nclimb in Hsum by lia. fold n in Hsum.
  assert (Hnd : (n * d == h)%Q).
  { rewrite Ehold. apply Qmult_div_r. lra. }
  lra.
Qed.




(** ** Altitude steps of the two climb segments *)

(** C4 (as amended).  In the two-climb Mission the step of the first climb
    segment is set equal to [10000 ft / Nclimb1] and its last altitude to
    10,000 ft; the step of the second climb segment is set equal to
    [dhftholdcl2], which is only bounded below by
    [(hftCruise - 10000 ft) / Nclimb2]: an inequality, not an equality. *)
Theorem twoclimb_altitude_steps :
  forall ext Nclimb1 Nclimb2 Ncruise cs,
    TwoClimb.Mission_setup ext Nclimb1 Nclimb2 Ncruise = inr cs ->
    In (mk EQ dhftholdcl1 (Div (Qty 10000 "ft") (pyint Nclimb1))) cs
    /\ (forall i, i < Nclimb1 -> In (mk EQ dhftholdcl1 (dhft climb1 i)) cs)
    /\ In (mk EQ (hft climb1 (Nclimb1 - 1)) (Qty 10000 "ft")) cs
    /\ (forall k, k < Ncruise ->
          In (mk GE dhftholdcl2
                (Div (Sub (hft cruise k) (Qty 10000 "ft")) (pyint Nclimb2))) cs)
    /\ (forall i, i < Nclimb2 -> In (mk EQ dhftholdcl2 (dhft climb2 i)) cs)
    /\ forall uconv rho, sat_all uconv rho cs ->
         (forall i, i < Nclimb1 ->
            (eval uconv rho (dhft climb1 i)
             == 10000 * uconv "ft"%string / inject_Z (Z.of_nat Nclimb1))%Q)
         /\ (eval uconv rho (hft climb1 (Nclimb1 - 1))
             == 10000 * uconv "ft"%string)%Q
         /\ (forall i, i < Nclimb2 ->
               ((eval uconv rho CruiseAlt - 10000 * uconv "ft"%string)
                  / inject_Z (Z.of_nat Nclimb2)
                <= eval uconv rho (dhft climb2 i))%Q).
Proof.
  intros ext Nclimb1 Nclimb2 Ncruise cs H.
  destruct (twoclimb_pos _ _ _ _ H) as (Hn1 & Hn2 & Hm).
  destruct (twoclimb_contains _ _ _ _ H)
    as (_ & _ & _ & _ & _ & _ & _ & _ & _ & _ & Hcr & _ & _ & _ & _ & _ & _
        & Htop1 & Hd2 & Hd2' & Hd1 & Hd1' & _).
  repeat split; try assumption.
  - intros i Hi.
    pose proof (H0 _ Hd1) as E1. pose proof (H0 _ (Hd1' i Hi)) as E2.
    unfold sat in E1, E2. cbn in E1, E2 |- *. now rewrite <- E2, E1.
  - exact (H0 _ Htop1).
  - intros i Hi.
    pose proof (H0 _ Hcr) as E0. pose proof (H0 _ (Hd2 0 Hm)) as E1.
    pose proof (H0 _ (Hd2' i Hi)) as E2.
    unfold sat in E0, E1, E2. cbn in E0, E1, E2 |- *.
    now rewrite <- E2, <- E0.
Qed.

Lemma twoclimb_altitude_steps_witness :
  (eval unit_one (rho_two 50000) (dhft climb1 1)
   == 10000 * unit_one "ft"%string / inject_Z (Z.of_nat 2))%Q
  /\ (eval unit_one (rho_two 50000) (hft climb1 (2 - 1))
      == 10000 * unit_one "ft"%string)%Q
  /\ ((eval unit_one (rho_two 50000) CruiseAlt - 10000 * unit_one "ft"%string)
        / inject_Z (Z.of_nat 2)
      <= eval unit_one (rho_two 50000) (dhft climb2 1))%Q.
Proof.
  assert (Hsat : exists cs, TwoClimb.Mission_setup no_submodels 2 2 2 = inr cs
                            /\ sat_all unit_one (rho_two 50000) cs).
  { eexists. split; [reflexivity|].
    apply sat_all_forallb. vm_compute. reflexivity. }
  destruct Hsat as (cs & H & Hsat).
  destruct (twoclimb_altitude_steps no_submodels 2 2 2 H)
    as (_ & _ & _ & _ & _ & Hsem).
  destruct (Hsem unit_one (rho_two 50000) Hsat) as (H1 & Htop & H2).
  split; [apply H1; lia|]. split; [exact Htop | apply H2; lia].
Defined.

(** C4 as stated fails: [Mission(2, 2, 2)] has a feasible assignment whose
    second climb step (50,000 ft) is not [(CruiseAlt - 10000 ft) / Nclimb2]
    (10,000 ft). *)
Lemma twoclimb_second_step_not_pinned :
  exists cs,
    TwoClimb.Mission_setup no_submodels 2 2 2 = inr cs
    /\ sat_all unit_one (rho_two 50000) cs
    /\ ~ (eval unit_one (rho_two 50000) (dhft climb2 0)
          == (eval unit_one (rho_two 50000) CruiseAlt
              - 10000 * unit_one "ft"%string) / inject_Z (Z.of_nat 2))%Q.
Proof.
  eexists. split; [reflexivity|]. split.
  - apply sat_all_forallb. vm_compute. reflexivity.
  - vm_compute. discriminate.
Qed.

(** ** Minimum climb rate *)

(** Nothing that the two-climb [Mission.setup] or its [StateLinking] builds
    mentions [RC_{min}]. *)
Lemma twoclimb_RCmin_unused ext Nclimb1 Nclimb2 Ncruise cs :
  TwoClimb.Mission_setup ext Nclimb1 Nclimb2 Ncruise = inr cs ->
  forall c, In c cs -> In RCmin_var (constraint_vars c) ->
    In c (Aircraft ext (Nclimb1 + Nclimb2) Ncruise)
    \/ In c (ClimbSegment ext climb1 Nclimb1)
    \/ In c (ClimbSegment ext climb2 Nclimb2)
    \/ In c (CruiseClimbSegment ext Ncruise)
    \/ In c (FlightState ext (Nclimb1 + Nclimb2 + Ncruise)).
Proof.
  intros H c Hc Hmen.
  destruct (twoclimb_two _ _ _ _ H) as (Hn1 & Hn2 & Hm).
  unfold TwoClimb.Mission_setup in H. enter H.
  split_binds H.
  rewrite twoclimb_statelinking in Hpart.
  rewrite !Nat.leb_refl in Hpart. cbn [andb] in Hpart.
  rewrite extend_nil in Hpart0.
  normalize Hpart0. normalize Hpart1. normalize Hpart2. normalize Hpart3.
  injection Hpart0 as <-. injection Hpart1 as <-. injection Hpart2 as <-.
  injection Hpart3 as <-. injection Hpart as <-. injection H as <-.
  unfold twoclimb_links in Hc.
  scan Hc.
  all: try tauto.
  all: no_mention Hmen.
Qed.

(** C6.  The simple Mission requires the rate of climb at every climb
    sub-point, so at the first one, to be at least [RC_{min}].  The two-climb
    Mission does not: it declares [RC_{min}] and keeps the heading of the
    minimum climb rate constraint, but the constraint itself is commented
    out, and no constraint that its [Mission.setup] or [StateLinking] builds
    mentions [RC_{min}]. *)
Theorem min_climb_rate_requirement :
  (forall ext Nclimb Ncruise cs,
     Simple.Mission_setup ext Nclimb Ncruise = inr cs ->
     (forall i, i < Nclimb -> In (mk GE (RC climb i) RCmin) cs)
     /\ In (mk GE (RC climb 0) RCmin) cs
     /\ forall uconv rho, sat_all uconv rho cs ->
          (eval uconv rho RCmin <= eval uconv rho (RC climb 0))%Q)
  /\
  (forall ext Nclimb1 Nclimb2 Ncruise cs,
     TwoClimb.Mission_setup ext Nclimb1 Nclimb2 Ncruise = inr cs ->
     forall c, In c cs -> In RCmin_var (constraint_vars c) ->
       In c (Aircraft ext (Nclimb1 + Nclimb2) Ncruise)
       \/ In c (ClimbSegment ext climb1 Nclimb1)
       \/ In c (ClimbSegment ext climb2 Nclimb2)
       \/ In c (CruiseClimbSegment ext Ncruise)
       \/ In c (FlightState ext (Nclimb1 + Nclimb2 + Ncruise))).
Proof.
  split.
  - intros ext Nclimb Ncruise cs H.
    destruct (simple_pos _ _ _ H) as [Hn _].
    assert (Hrc : forall i, i < Nclimb -> In (mk GE (RC climb i) RCmin) cs)
      by apply (simple_contains _ _ _ H).
    repeat split; auto.
    intros uconv rho Hsat. exact (Hsat _ (Hrc 0 Hn)).
  - intros ext Nclimb1 Nclimb2 Ncruise cs H.
    exact (twoclimb_RCmin_unused _ _ _ _ H).
Qed.

Lemma min_climb_rate_requirement_witness :
  (eval unit_one (rho_example 2) RCmin
   <= eval unit_one (rho_example 2) (RC climb 0))%Q
  /\ forall c,
       In c [mk GE (RC climb1 0) RCmin] ->
       ~ (exists cs, TwoClimb.Mission_setup no_submodels 2 2 2 = inr cs
                     /\ In c cs).
Proof.
  split.
  - apply (proj1 min_climb_rate_requirement no_submodels 2 2 _ eq_refl).
    apply sat_all_forallb. vm_compute. reflexivity.
  - intros c [<- | []] (cs & H & Hc).
    assert (Hmen : In RCmin_var (constraint_vars (mk GE (RC climb1 0) RCmin)))
      by (right; left; reflexivity).
    destruct (proj2 min_climb_rate_requirement no_submodels 2 2 2 _ H _ Hc Hmen)
      as [F | [F | [F | [F | F]]]]; exact F.
Defined.

(** C6 fails in the two-climb variant: [Mission(2, 2, 2)] has a feasible
    assignment whose first climb rate (1) is below [RC_{min}] (2). *)
Lemma twoclimb_min_climb_rate_not_required :
  exists cs,
    TwoClimb.Mission_setup no_submodels 2 2 2 = inr cs
    /\ sat_all unit_one (rho_two 10000) cs
    /\ (eval unit_one (rho_two 10000) (RC climb1 0)
        < eval unit_one (rho_two 10000) RCmin)%Q.
Proof.
  eexists. split; [reflexivity|]. split.
  - apply sat_all_forallb. vm_compute. reflexivity.
  - vm_compute. reflexivity.
Qed.

(** ** State linking *)

Lemma simple_links_are_links cl cr es Nclimb Ncruise c :
  In c (simple_links cl cr es Nclimb Ncruise) ->
  exists key, In key statevarkeys
    /\ ((exists i, i < Nclimb /\ c = link cl es 0 key i)
        \/ (exists j, j < Ncruise /\ c = link cr es Nclimb key j)).
Proof.
  unfold simple_links. intros H.
  apply in_flat_map in H as (key & Hkey & H). exists key. split; [easy|].
  apply in_app_or in H as [H | H]; apply In_tab in H; auto.
Qed.

Lemma twoclimb_links_are_links c1 c2 cr es Nclimb1 Nclimb2 Ncruise c :
  In c (twoclimb_links c1 c2 cr es Nclimb1 Nclimb2 Ncruise) ->
  exists key, In key statevarkeys
    /\ ((exists i, i < Nclimb1 /\ c = link c1 es 0 key i)
        \/ (exists j, j < Nclimb2 /\ c = link c2 es Nclimb1 key j)
        \/ (exists k, k < Ncruise
                      /\ c = link cr es (Nclimb1 + Nclimb2) key k)).
Proof.
  unfold twoclimb_links. intros H.
  apply in_flat_map in H as (key & Hkey & H). exists key. split; [easy|].
  apply in_app_or in H as [H | H]; [|apply in_app_or in H as [H | H]];
    apply In_tab in H; auto.
Qed.

Lemma simple_links_tail cl cr es Nclimb Ncruise g :
  Nclimb + Ncruise <= g ->
  filter (at_global es g) (simple_links cl cr es Nclimb Ncruise) = [].
Proof.
  intros Hg. unfold simple_links. apply filter_flat_map_none.
  intros key _. rewrite filter_app, !block_at_global. crunch_blocks.
Qed.

Lemma twoclimb_links_tail c1 c2 cr es Nclimb1 Nclimb2 Ncruise g :
  Nclimb1 + Nclimb2 + Ncruise <= g ->
  filter (at_global es g)
    (twoclimb_links c1 c2 cr es Nclimb1 Nclimb2 Ncruise) = [].
Proof.
  intros Hg. unfold twoclimb_links. apply filter_flat_map_none.
  intros key _. rewrite !filter_app, !block_at_global. crunch_blocks.
Qed.

(** The links of an assembled mission are those of its own segments. *)
Lemma simple_mission_links ext Nclimb Ncruise cs :
  Simple.Mission_setup ext Nclimb Ncruise = inr cs ->
  incl (simple_links climb_state cruise_state enginestate Nclimb Ncruise) cs.
Proof.
  intros H. destruct (simple_pos _ _ _ H) as [Hn Hm].
  unfold Simple.Mission_setup in H. enter H. split_binds H.
  rewrite simple_statelinking, leb_all_refl in Hpart.
  injection Hpart as Hlinks. injection H as <-.
  intros c Hc. repeat (apply in_or_app; right). now rewrite <- Hlinks.
Qed.

Lemma twoclimb_mission_links ext Nclimb1 Nclimb2 Ncruise cs :
  TwoClimb.Mission_setup ext Nclimb1 Nclimb2 Ncruise = inr cs ->
  incl (twoclimb_links climb1_state climb2_state cruise_state enginestate
          Nclimb1 Nclimb2 Ncruise) cs.
Proof.
  intros H. destruct (twoclimb_pos _ _ _ _ H) as (Hn1 & Hn2 & Hm).
  unfold TwoClimb.Mission_setup in H. enter H. split_binds H.
  rewrite twoclimb_statelinking, !Nat.leb_refl in Hpart.
  injection Hpart as Hlinks. injection H as <-.
  intros c Hc. repeat (apply in_or_app; right). now rewrite <- Hlinks.
Qed.

(** C1.  When the segment lengths add up to the length of the shared
    flight-state sequence, [StateLinking] succeeds and emits 18 equality
    constraints per global index, one per tracked field.  For each field,
    the one constraint on global index [offset + i] is the link from local
    index [i] of the segment that starts at [offset], and each local index
    of each segment occurs in exactly one constraint.  In particular global
    index [Nclimb + j] is linked to local index [j] of the second segment.
    Every assembled Mission contains these links for its own segments. *)
Theorem statelinking_links_each_index_once :
  (forall cl cr es Nclimb Ncruise,
     cl <> cr ->
     exists cs,
       Simple.StateLinking_setup (PyModel cl (Some Nclimb))
         (PyModel cr (Some Ncruise)) (PyModel es (Some (Nclimb + Ncruise)))
         Nclimb Ncruise = inr cs
       /\ List.length cs = 18 * (Nclimb + Ncruise)
       /\ (forall c, In c cs -> op c = EQ)
       /\ (forall g, g < Nclimb + Ncruise ->
             List.length (filter (at_global es g) cs) = 18)
       /\ (forall key i, In key statevarkeys -> i < Nclimb ->
             filter (on_global es key i) cs = [link cl es 0 key i]
             /\ filter (on_local cl key i) cs = [link cl es 0 key i])
       /\ (forall key j, In key statevarkeys -> j < Ncruise ->
             filter (on_global es key (Nclimb + j)) cs
               = [link cr es Nclimb key j]
             /\ filter (on_local cr key j) cs = [link cr es Nclimb key j]))
  /\
  (forall c1 c2 cr es Nclimb1 Nclimb2 Ncruise,
     c1 <> c2 -> c1 <> cr -> c2 <> cr ->
     exists cs,
       TwoClimb.StateLinking_setup (PyModel c1 (Some Nclimb1))
         (PyModel c2 (Some Nclimb2)) (PyModel cr (Some Ncruise))
         (PyModel es (Some (Nclimb1 + Nclimb2 + Ncruise)))
         Nclimb1 Nclimb2 Ncruise = inr cs
       /\ List.length cs = 18 * (Nclimb1 + Nclimb2 + Ncruise)
       /\ (forall c, In c cs -> op c = EQ)
       /\ (forall g, g < Nclimb1 + Nclimb2 + Ncruise ->
             List.length (filter (at_global es g) cs) = 18)
       /\ (forall key i, In key statevarkeys -> i < Nclimb1 ->
             filter (on_global es key i) cs = [link c1 es 0 key i]
             /\ filter (on_local c1 key i) cs = [link c1 es 0 key i])
       /\ (forall key j, In key statevarkeys -> j < Nclimb2 ->
             filter (on_global es key (Nclimb1 + j)) cs
               = [link c2 es Nclimb1 key j]
             /\ filter (on_local c2 key j) cs = [link c2 es Nclimb1 key j])
       /\ (forall key k, In key statevarkeys -> k < Ncruise ->
             filter (on_global es key (Nclimb1 + Nclimb2 + k)) cs
               = [link cr es (Nclimb1 + Nclimb2) key k]
             /\ filter (on_local cr key k) cs
               = [link cr es (Nclimb1 + Nclimb2) key k]))
  /\
  (forall ext Nclimb Ncruise cs,
     Simple.Mission_setup ext Nclimb Ncruise = inr cs ->
     exists links,
       Simple.StateLinking_setup (PyModel climb_state (Some Nclimb))
         (PyModel cruise_state (Some Ncruise))
         (PyModel enginestate (Some (Nclimb + Ncruise)))
         Nclimb Ncruise = inr links
       /\ incl links cs)
  /\
  (forall ext Nclimb1 Nclimb2 Ncruise cs,
     TwoClimb.Mission_setup ext Nclimb1 Nclimb2 Ncruise = inr cs ->
     exists links,
       TwoClimb.StateLinking_setup (PyModel climb1_state (Some Nclimb1))
         (PyModel climb2_state (Some Nclimb2))
         (PyModel cruise_state (Some Ncruise))
         (PyModel enginestate (Some (Nclimb1 + Nclimb2 + Ncruise)))
         Nclimb1 Nclimb2 Ncruise = inr links
       /\ incl links cs).
Proof.
  repeat split.
  - intros cl cr es Nclimb Ncruise Hd.
    exists (simple_links cl cr es Nclimb Ncruise).
    rewrite simple_statelinking, leb_all_refl.
    split; [reflexivity|].
    split; [apply simple_links_length|].
    split.
    { intros c Hc.
      apply simple_links_are_links in Hc as (key & _ & [(i & _ & ->) | (j & _ & ->)]);
        reflexivity. }
    split; [apply simple_links_at_global|].
    split; [now apply simple_links_climb | now apply simple_links_cruise].
  - intros c1 c2 cr es Nclimb1 Nclimb2 Ncruise H12 H1r H2r.
    exists (twoclimb_links c1 c2 cr es Nclimb1 Nclimb2 Ncruise).
    rewrite twoclimb_statelinking, !Nat.leb_refl.
    split; [reflexivity|].
    split; [apply twoclimb_links_length|].
    split.
    { intros c Hc.
      apply twoclimb_links_are_links in Hc
        as (key & _ & [(i & _ & ->) | [(j & _ & ->) | (k & _ & ->)]]);
        reflexivity. }
    split; [apply twoclimb_links_at_global|].
    split; [now apply twoclimb_links_climb1|].
    split; [now apply twoclimb_links_climb2 | now apply twoclimb_links_cruise].
  - intros ext Nclimb Ncruise cs H.
    exists (simple_links climb_state cruise_state enginestate Nclimb Ncruise).
    rewrite simple_statelinking, leb_all_refl.
    split; [reflexivity | exact (simple_mission_links _ _ _ H)].
  - intros ext Nclimb1 Nclimb2 Ncruise cs H.
    exists (twoclimb_links climb1_state climb2_state cruise_state enginestate
              Nclimb1 Nclimb2 Ncruise).
    rewrite twoclimb_statelinking, !Nat.leb_refl.
    split; [reflexivity | exact (twoclimb_mission_links _ _ _ _ H)].
Qed.

Lemma statelinking_links_each_index_once_witness :
  exists cs,
    Simple.StateLinking_setup (PyModel climb_state (Some 2))
      (PyModel cruise_state (Some 3)) (PyModel enginestate (Some (2 + 3)))
      2 3 = inr cs
    /\ filter (on_global enginestate "hft" (2 + 1)) cs
       = [link cruise_state enginestate 2 "hft" 1].
Proof.
  assert (Hd : climb_state <> cruise_state) by discriminate.
  assert (Hk : In "hft"%string statevarkeys)
    by (unfold statevarkeys; do 12 right; left; reflexivity).
  destruct (proj1 statelinking_links_each_index_once
              climb_state cruise_state enginestate 2 3 Hd)
    as (cs & Hcs & _ & _ & _ & _ & Hcruise).
  exists cs. split; [exact Hcs|].
  apply (Hcruise "hft"%string 1 Hk). lia.
Defined.

(** C2 (as amended).  [StateLinking] has no length check of its own.  It
    succeeds exactly when every index it uses is in range: each segment
    count at most the length of its local sequence, and the counts together
    at most the length of the shared sequence; otherwise the first index out
    of range raises [IndexError] while the model is assembled.  When the
    shared sequence is longer than the counts together, it succeeds and
    leaves the shared positions beyond them unlinked. *)
Theorem statelinking_length_mismatch :
  (forall cl cr es Lcl Lcr Les Nclimb Ncruise,
     Simple.StateLinking_setup (PyModel cl (Some Lcl)) (PyModel cr (Some Lcr))
       (PyModel es (Some Les)) Nclimb Ncruise
     = if (Nclimb <=? Lcl) && (Ncruise <=? Lcr) && (Nclimb + Ncruise <=? Les)
       then inr (simple_links cl cr es Nclimb Ncruise)
       else inl IndexError)
  /\
  (forall c1 c2 cr es L1 L2 Lcr Les Nclimb1 Nclimb2 Ncruise,
     TwoClimb.StateLinking_setup (PyModel c1 (Some L1)) (PyModel c2 (Some L2))
       (PyModel cr (Some Lcr)) (PyModel es (Some Les)) Nclimb1 Nclimb2 Ncruise
     = if (Nclimb1 <=? L1) && (Nclimb2 <=? L2) && (Ncruise <=? Lcr)
          && (Nclimb1 + Nclimb2 + Ncruise <=? Les)
       then inr (twoclimb_links c1 c2 cr es Nclimb1 Nclimb2 Ncruise)
       else inl IndexError)
  /\
  (forall cl cr es Nclimb Ncruise g,
     Nclimb + Ncruise <= g ->
     filter (at_global es g) (simple_links cl cr es Nclimb Ncruise) = [])
  /\
  (forall c1 c2 cr es Nclimb1 Nclimb2 Ncruise g,
     Nclimb1 + Nclimb2 + Ncruise <= g ->
     filter (at_global es g)
       (twoclimb_links c1 c2 cr es Nclimb1 Nclimb2 Ncruise) = []).
Proof.
  repeat split.
  - intros. apply simple_statelinking.
  - intros. apply twoclimb_statelinking.
  - intros. now apply simple_links_tail.
  - intros. now apply twoclimb_links_tail.
Qed.

Lemma statelinking_length_mismatch_witness :
  filter (at_global enginestate 2)
    (simple_links climb_state cruise_state enginestate 1 1) = [].
Proof.
  apply (proj1 (proj2 (proj2 statelinking_length_mismatch))). lia.
Defined.

(** C2 as stated fails: with one climb point, one cruise point and a shared
    sequence of length three the lengths do not add up, yet [StateLinking]
    raises nothing and returns the 36 links of the first two positions. *)
Lemma statelinking_mismatch_not_rejected :
  1 + 1 <> 3
  /\ exists cs,
       Simple.StateLinking_setup (PyModel climb_state (Some 1))
         (PyModel cruise_state (Some 1)) (PyModel enginestate (Some 3)) 1 1
       = inr cs
       /\ List.length cs = 36
       /\ filter (at_global enginestate 2) cs = [].
Proof.
  split; [lia|]. eexists. split; [reflexivity|]. split; reflexivity.
Qed.

(** * Further properties of the mission assembly *)

(** ** Sums of values *)

Lemma Qsum_app l1 l2 : (Qsum (l1 ++ l2) == Qsum l1 + Qsum l2)%Q.
Proof.
  induction l1 as [|x l1 IH]; cbn [app Qsum].
  - lra.
  - rewrite IH. lra.
Qed.

Lemma Qsum_tab_S n (f : nat -> Q) :
  (Qsum (tab (S n) f) == Qsum (tab n f) + f n)%Q.
Proof. rewrite tab_S, Qsum_app. cbn. lra. Qed.

Lemma eval_fold_left_Add uconv rho l e0 :
  (eval uconv rho (fold_left Add l e0)
   == eval uconv rho e0 + Qsum (map (eval uconv rho) l))%Q.
Proof.
  revert e0. induction l as [|x l IH]; intros e0; cbn [fold_left map].
  - cbn. lra.
  - rewrite IH. cbn. lra.
Qed.

Lemma eval_total uconv rho m key n :
  (eval uconv rho (total m key n)
   == Qsum (map (eval uconv rho) (vec m key n)))%Q.
Proof. unfold total. rewrite eval_fold_left_Add. cbn. lra. Qed.

Lemma Qsum_tab_const n (f : nat -> Q) c :
  (forall i, i < n -> (f i == c)%Q) ->
  (Qsum (tab n f) == inject_Z (Z.of_nat n) * c)%Q.
Proof.
  induction n as [|n IH]; intros H.
  - change (0 == 0 * c)%Q. lra.
  - rewrite Qsum_tab_S, IH, (H n), inject_nat_succ by (intros; auto with arith).
    lra.
Qed.

Lemma Qsum_tab_nonneg n (f : nat -> Q) :
  (forall i, i < n -> (0 <= f i)%Q) -> (0 <= Qsum (tab n f))%Q.
Proof.
  induction n as [|n IH]; intros H.
  - change (0 <= 0)%Q. lra.
  - rewrite Qsum_tab_S.
    specialize (IH ltac:(intros; apply H; lia)). specialize (H n ltac:(lia)).
    lra.
Qed.

(** ** Equal steps and segment weights *)

Lemma inject_nat_add a b :
  (inject_Z (Z.of_nat (a + b)) == inject_Z (Z.of_nat a) + inject_Z (Z.of_nat b))%Q.
Proof. now rewrite Nat2Z.inj_add, inject_Z_plus. Qed.

(** ** Equal steps *)

Section Stairs.

Variables (a : nat -> Q) (d : Q) (n : nat).
Hypothesis step : forall i, S i < n -> (a i + d <= a (S i))%Q.

Lemma stairs_gap k i :
  i + k < n -> (a i + inject_Z (Z.of_nat k) * d <= a (i + k))%Q.
Proof.
  induction k as [|k IH]; intros H.
  - rewrite Nat.add_0_r. change (inject_Z (Z.of_nat 0)) with 0%Q. lra.
  - specialize (IH ltac:(lia)).
    pose proof (@step (i + k) ltac:(lia)) as Hs.
    replace (i + S k) with (S (i + k)) by lia.
    rewrite inject_nat_succ. lra.
Qed.

Lemma stairs_pinned i :
  (d <= a 0)%Q -> (a (n - 1) <= inject_Z (Z.of_nat n) * d)%Q -> i < n ->
  (a i == inject_Z (Z.of_nat (S i)) * d)%Q.
Proof.
  intros H0 Htop Hi.
  pose proof (@stairs_gap i 0 ltac:(lia)) as Hlow. cbn [Nat.add] in Hlow.
  pose proof (@stairs_gap (n - 1 - i) i ltac:(lia)) as Hup.
  replace (i + (n - 1 - i)) with (n - 1) in Hup by lia.
  assert (E : (inject_Z (Z.of_nat n)
               == inject_Z (Z.of_nat (S i)) + inject_Z (Z.of_nat (n - 1 - i)))%Q).
  { rewrite <- inject_nat_add. replace (S i + (n - 1 - i)) with n by lia.
    reflexivity. }
  rewrite E in Htop. rewrite inject_nat_succ in *. 
  apply Qle_antisym; lra.
Qed.

End Stairs.

(** ** Weights inside one segment *)

Section SegmentWeights.

Variables (s e b : nat -> Q) (n : nat).
Hypothesis burn : forall i, i < n -> (e i + b i <= s i)%Q.
Hypothesis cont : forall i, S i < n -> (s (S i) == e i)%Q.

Lemma segment_telescope m :
  m < n -> (e m + Qsum (tab (S m) b) <= s 0)%Q.
Proof.
  induction m as [|m IH]; intros H.
  - pose proof (@burn 0 H). rewrite Qsum_tab_S. change (Qsum (tab 0 b)) with 0%Q. lra.
  - specialize (IH ltac:(lia)).
    pose proof (@burn (S m) H). pose proof (@cont m H).
    rewrite Qsum_tab_S. lra.
Qed.

Hypothesis nonneg : forall i, i < n -> (0 <= b i)%Q.

Lemma segment_end_le_start i : i < n -> (e i <= s i)%Q.
Proof. intros H. pose proof (@burn i H). pose proof (@nonneg i H). lra. Qed.

Lemma segment_start_mono k i : i + k < n -> (s (i + k) <= s i)%Q.
Proof.
  induction k as [|k IH]; intros H.
  - rewrite Nat.add_0_r. lra.
  - specialize (IH ltac:(lia)).
    replace (i + S k) with (S (i + k)) by lia.
    pose proof (@cont (i + k) ltac:(lia)).
    pose proof (@segment_end_le_start (i + k) ltac:(lia)). lra.
Qed.

Lemma segment_end_mono k i : i + k < n -> (e (i + k) <= e i)%Q.
Proof.
  induction k as [|k IH]; intros H.
  - rewrite Nat.add_0_r. lra.
  - specialize (IH ltac:(lia)).
    replace (i + S k) with (S (i + k)) by lia.
    pose proof (@cont (i + k) ltac:(lia)).
    pose proof (@segment_end_le_start (S (i + k)) ltac:(lia)). lra.
Qed.

Lemma segment_end_ge_last i : i < n -> (e (n - 1) <= e i)%Q.
Proof.
  intros H. pose proof (@segment_end_mono (n - 1 - i) i ltac:(lia)) as M.
  now replace (i + (n - 1 - i)) with (n - 1) in M by lia.
Qed.

Lemma segment_start_le_first i : i < n -> (s i <= s 0)%Q.
Proof. intros H. exact (@segment_start_mono i 0 H). Qed.

End SegmentWeights.

(** ** Assembling a mission *)

Lemma simple_setup_succeeds ext Nclimb Ncruise :
  2 <= Nclimb -> 2 <= Ncruise ->
  exists cs, Simple.Mission_setup ext Nclimb Ncruise = inr cs.
Proof.
  intros Hn Hm. unfold Simple.Mission_setup.
  rewrite !Vectorize_pos by lia. cbn [bind vectorization].
  rewrite simple_statelinking, leb_all_refl. cbn [bind].
  rewrite extend_nil. autorewrite with py. cbn [collect bind ret].
  eexists. reflexivity.
Qed.

Lemma twoclimb_setup_succeeds ext Nclimb1 Nclimb2 Ncruise :
  2 <= Nclimb1 -> 2 <= Nclimb2 -> 2 <= Ncruise ->
  exists cs, TwoClimb.Mission_setup ext Nclimb1 Nclimb2 Ncruise = inr cs.
Proof.
  intros Hn1 Hn2 Hm. unfold TwoClimb.Mission_setup.
  rewrite !Vectorize_pos by lia. cbn [bind vectorization].
  rewrite twoclimb_statelinking, !Nat.leb_refl. cbn [andb bind].
  rewrite extend_nil. autorewrite with py. cbn [collect bind ret].
  eexists. reflexivity.
Qed.

Lemma simple_contains_more ext Nclimb Ncruise cs :
  Simple.Mission_setup ext Nclimb Ncruise = inr cs ->
  In (set_tight (mk LE dry_parts W_dry)) cs
  /\ In (set_tight (mk LE (Add W_dry W_ftotal) W_total)) cs
  /\ In (set_tight (mk GE W_ftotal (Add W_fclimb W_fcruise))) cs
  /\ In (set_tight (mk GE W_fclimb (total climb "W_{burn}" Nclimb))) cs
  /\ In (set_tight (mk GE W_fcruise (total cruise "W_{burn}" Ncruise))) cs
  /\ In (mk GE CruiseAlt (Qty 30000 "ft")) cs
  /\ (forall i, i < Nclimb ->
        In (mk EQ (W_burn climb i) (burn_rate climb 0 i)) cs)
  /\ (forall i, i < Ncruise ->
        In (mk EQ (W_burn cruise i) (burn_rate cruise Nclimb i)) cs)
  /\ (forall i, i < Nclimb -> In (mk EQ (M_2 i) (Mach climb i)) cs)
  /\ (forall i, i < Ncruise ->
        In (mk EQ (M_2 (Nclimb + i)) (Mach cruise i)) cs)
  /\ (forall i, i < Ncruise ->
        In (mk EQ (drag cruise i) (Mul numeng (thrust (Nclimb + i)))) cs)
  /\ (forall i, i < Ncruise ->
        In (set_tight
              (mk GE (z_bre i)
                 (Div (Mul (Mul (TSFC (Nclimb + i)) (thr cruise i))
                           (drag cruise i))
                      (W_avg cruise i)))) cs).
Proof.
  intros H. destruct (simple_two _ _ _ H) as [Hn Hm].
  unfold Simple.Mission_setup in H. enter H.
  split_binds H. clear Hpart.
  rewrite extend_nil in Hpart0.
  normalize Hpart0. normalize Hpart1. normalize Hpart2.
  injection Hpart0 as <-. injection Hpart1 as <-. injection Hpart2 as <-.
  injection H as <-.
  repeat split; intros; find_item.
Qed.

Lemma twoclimb_contains_more ext Nclimb1 Nclimb2 Ncruise cs :
  TwoClimb.Mission_setup ext Nclimb1 Nclimb2 Ncruise = inr cs ->
  In (set_tight (mk LE dry_parts W_dry)) cs
  /\ In (set_tight (mk LE (Add W_dry W_ftotal) W_total)) cs
  /\ In (set_tight (mk GE W_ftotal
                      (Add (Add W_fclimb1 W_fclimb2) W_fcruise))) cs
  /\ In (set_tight (mk GE W_fclimb1 (total climb1 "W_{burn}" Nclimb1))) cs
  /\ In (set_tight (mk GE W_fclimb2 (total climb2 "W_{burn}" Nclimb2))) cs
  /\ In (set_tight (mk GE W_fcruise (total cruise "W_{burn}" Ncruise))) cs
  /\ (forall i, i < Nclimb1 ->
        In (mk EQ (W_burn climb1 i) (burn_rate climb1 0 i)) cs)
  /\ (forall i, i < Nclimb2 ->
        In (mk EQ (W_burn climb2 i) (burn_rate climb2 Nclimb1 i)) cs)
  /\ (forall i, i < Ncruise ->
        In (mk EQ (W_burn cruise i)
              (burn_rate cruise (Nclimb1 + Nclimb2) i)) cs)
  /\ (forall i, i < Nclimb1 -> In (mk EQ (M_2 i) (Mach climb1 i)) cs)
  /\ (forall i, i < Nclimb2 ->
        In (mk EQ (M_2 (Nclimb1 + i)) (Mach climb2 i)) cs)
  /\ (forall i, i < Ncruise ->
        In (mk EQ (M_2 (Nclimb1 + Nclimb2 + i)) (Mach cruise i)) cs)
  /\ (forall i, i < Nclimb1 ->
        In (mk LE (airspeed climb1 i) (Qty 250 "knots")) cs).
Proof.
  intros H. destruct (twoclimb_two _ _ _ _ H) as (Hn1 & Hn2 & Hm).
  unfold TwoClimb.Mission_setup in H. enter H.
  split_binds H. clear Hpart.
  rewrite extend_nil in Hpart0.
  normalize Hpart0. normalize Hpart1. normalize Hpart2. normalize Hpart3.
  injection Hpart0 as <-. injection Hpart1 as <-. injection Hpart2 as <-.
  injection Hpart3 as <-. injection H as <-.
  repeat split; intros; find_item.
Qed.

(** X1.  The simple [Mission.setup] assembles exactly when both point counts
    are at least two.  With a smaller count it raises [ValueError]: a count
    of zero fails in [Vectorize], a count of one where
    [W_{start}[1:] == W_{end}[:-1]] compares two empty slices. *)
Theorem simple_mission_assembles_iff :
  forall ext Nclimb Ncruise,
    (2 <= Nclimb /\ 2 <= Ncruise ->
     exists cs, Simple.Mission_setup ext Nclimb Ncruise = inr cs)
    /\ (Nclimb < 2 \/ Ncruise < 2 ->
        Simple.Mission_setup ext Nclimb Ncruise = inl ValueError).
Proof.
  intros ext Nclimb Ncruise. split.
  - intros [Hn Hm]. now apply simple_setup_succeeds.
  - apply simple_setup_raises.
Qed.

Lemma simple_mission_assembles_iff_witness :
  (exists cs, Simple.Mission_setup no_submodels 2 2 = inr cs)
  /\ Simple.Mission_setup no_submodels 1 1 = inl ValueError
  /\ Simple.Mission_setup no_submodels 0 3 = inl ValueError.
Proof.
  split; [|split].
  - apply (proj1 (simple_mission_assembles_iff no_submodels 2 2)). lia.
  - apply (proj2 (simple_mission_assembles_iff no_submodels 1 1)). lia.
  - apply (proj2 (simple_mission_assembles_iff no_submodels 0 3)). lia.
Defined.

(** X2.  The two-climb [Mission.setup] assembles exactly when all three point
    counts are at least two; with a smaller count it raises [ValueError]. *)
Theorem twoclimb_mission_assembles_iff :
  forall ext Nclimb1 Nclimb2 Ncruise,
    (2 <= Nclimb1 /\ 2 <= Nclimb2 /\ 2 <= Ncruise ->
     exists cs, TwoClimb.Mission_setup ext Nclimb1 Nclimb2 Ncruise = inr cs)
    /\ (Nclimb1 < 2 \/ Nclimb2 < 2 \/ Ncruise < 2 ->
        TwoClimb.Mission_setup ext Nclimb1 Nclimb2 Ncruise = inl ValueError).
Proof.
  intros ext Nclimb1 Nclimb2 Ncruise. split.
  - intros (Hn1 & Hn2 & Hm). now apply twoclimb_setup_succeeds.
  - apply twoclimb_setup_raises.
Qed.

Lemma twoclimb_mission_assembles_iff_witness :
  (exists cs, TwoClimb.Mission_setup no_submodels 3 3 8 = inr cs)
  /\ TwoClimb.Mission_setup no_submodels 1 1 1 = inl ValueError
  /\ TwoClimb.Mission_setup no_submodels 2 0 2 = inl ValueError.
Proof.
  split; [|split].
  - apply (proj1 (twoclimb_mission_assembles_iff no_submodels 3 3 8)). lia.
  - apply (proj2 (twoclimb_mission_assembles_iff no_submodels 1 1 1)). lia.
  - apply (proj2 (twoclimb_mission_assembles_iff no_submodels 2 0 2)). lia.
Defined.

(** X3.  In the simple Mission the altitude constraints fix the whole climb
    profile: climb sub-point [i] is at [(i + 1) * CruiseAlt / Nclimb]. *)
Theorem simple_climb_altitudes_pinned :
  forall ext Nclimb Ncruise cs uconv rho,
    Simple.Mission_setup ext Nclimb Ncruise = inr cs ->
    (forall c, In c cs -> altitude_constraint c = true -> sat uconv rho c) ->
    forall i, i < Nclimb ->
      (eval uconv rho (hft climb i)
       == inject_Z (Z.of_nat (S i))
          * (eval uconv rho CruiseAlt / inject_Z (Z.of_nat Nclimb)))%Q.
Proof.
  intros ext Nclimb Ncruise cs uconv rho H Hsat i Hi.
  destruct (simple_pos _ _ _ H) as [Hn Hm].
  destruct (simple_contains _ _ _ H)
    as (_ & _ & _ & _ & _ & _ & _ & Hcr & Hstep & Hfirst & Hupper & Hhold
        & Hdh & _).
  pose proof (Hsat _ (Hcr 0 Hm) eq_refl) as Ecr.
  pose proof (Hsat _ Hfirst eq_refl) as Efirst.
  pose proof (Hsat _ (Hupper 0 Hm) eq_refl) as Eupper.
  pose proof (Hsat _ Hhold eq_refl) as Ehold.
  pose proof (Hsat _ (Hdh 0 Hn) eq_refl) as Ed0.
  unfold sat in Ecr, Efirst, Eupper, Ehold, Ed0.
  cbn in Ecr, Efirst, Eupper, Ehold, Ed0 |- *.
  assert (Hnpos : (0 < inject_Z (Z.of_nat Nclimb))%Q)
    by now apply inject_nat_pos.
  rewrite <- Ecr, <- Ehold.
  apply stairs_pinned with (a := fun i => rho (VarKey climb "hft" (Some i)))
                           (n := Nclimb); try assumption.
  - intros j Hj.
    pose proof (Hsat _ (Hstep j Hj) eq_refl) as Es.
    pose proof (Hsat _ (Hdh j ltac:(lia)) eq_refl) as Ed.
    unfold sat in Es, Ed. cbn in Es, Ed. lra.
  - lra.
  - rewrite Ehold, Qmult_div_r by lra. exact Eupper.
Qed.

(** X4.  In the two-climb Mission the first climb segment is evenly spaced
    up to 10,000 ft: its sub-point [i] is at [(i + 1) * 10000 ft / Nclimb1]
    in every feasible assignment. *)
Theorem twoclimb_first_climb_altitudes_pinned :
  forall ext Nclimb1 Nclimb2 Ncruise cs uconv rho,
    TwoClimb.Mission_setup ext Nclimb1 Nclimb2 Ncruise = inr cs ->
    sat_all uconv rho cs ->
    forall i, i < Nclimb1 ->
      (eval uconv rho (hft climb1 i)
       == inject_Z (Z.of_nat (S i))
          * (10000 * uconv "ft"%string / inject_Z (Z.of_nat Nclimb1)))%Q.
Proof.
  intros ext Nclimb1 Nclimb2 Ncruise cs uconv rho H Hsat i Hi.
  destruct (twoclimb_pos _ _ _ _ H) as (Hn1 & Hn2 & Hm).
  destruct (twoclimb_contains _ _ _ _ H)
    as (_ & _ & _ & _ & _ & _ & _ & _ & _ & _ & _ & _ & _ & _ & _ & Hstep
        & Hfirst & Htop & _ & _ & Hd1 & Hd1' & _).
  pose proof (Hsat _ Hfirst) as Efirst.
  pose proof (Hsat _ Htop) as Etop.
  pose proof (Hsat _ Hd1) as Ed.
  pose proof (Hsat _ (Hd1' 0 Hn1)) as Ed0.
  unfold sat in Efirst, Etop, Ed, Ed0. cbn in Efirst, Etop, Ed, Ed0 |- *.
  assert (Hnpos : (0 < inject_Z (Z.of_nat Nclimb1))%Q)
    by now apply inject_nat_pos.
  rewrite <- Ed.
  apply stairs_pinned with (a := fun i => rho (VarKey climb1 "hft" (Some i)))
                           (n := Nclimb1); try assumption.
  - intros j Hj. pose proof (Hsat _ (Hstep j Hj)) as Es.
    unfold sat in Es. cbn in Es. lra.
  - lra.
  - rewrite Ed, Qmult_div_r by lra. lra.
Qed.

(** X5.  In the two-climb Mission [hftClimb2[-1] == hftCruise] compares with
    the whole cruise array, so every cruise altitude equals [CruiseAlt]; with
    two or more cruise points the signomial equality then forces the cruise
    step [dhftholdcr] (and the segment's [dhft]) to zero, so no feasible
    assignment has a positive cruise step. *)
Theorem twoclimb_cruise_altitude_constant :
  forall ext Nclimb1 Nclimb2 Ncruise cs uconv rho,
    TwoClimb.Mission_setup ext Nclimb1 Nclimb2 Ncruise = inr cs ->
    sat_all uconv rho cs ->
    (forall k, k < Ncruise ->
       (eval uconv rho (hft cruise k) == eval uconv rho CruiseAlt)%Q)
    /\ (2 <= Ncruise ->
        (eval uconv rho dhftholdcr == 0)%Q
        /\ (forall k, k < Ncruise -> (eval uconv rho (dhft cruise k) == 0)%Q)
        /\ ~ (0 < eval uconv rho dhftholdcr)%Q).
Proof.
  intros ext Nclimb1 Nclimb2 Ncruise cs uconv rho H Hsat.
  destruct (twoclimb_pos _ _ _ _ H) as (Hn1 & Hn2 & Hm).
  destruct (twoclimb_contains _ _ _ _ H)
    as (_ & _ & _ & _ & _ & _ & _ & _ & _ & _ & Hcr & Hsig & _ & _ & Htop2
        & _ & _ & _ & _ & _ & _ & _ & Hdcr & _).
  assert (Hall : forall k, k < Ncruise ->
            (eval uconv rho (hft cruise k) == eval uconv rho CruiseAlt)%Q).
  { intros k Hk.
    pose proof (Hsat _ Hcr) as E0.
    pose proof (Hsat _ (Htop2 0 Hm)) as E1.
    pose proof (Hsat _ (Htop2 k Hk)) as E2.
    unfold sat in E0, E1, E2. cbn in E0, E1, E2 |- *. lra. }
  split; [exact Hall|].
  intros H2.
  assert (Hz : (eval uconv rho dhftholdcr == 0)%Q).
  { pose proof (Hsat _ (Hsig 0 ltac:(lia))) as Es.
    pose proof (Hall 0 Hm) as A0. pose proof (Hall 1 ltac:(lia)) as A1.
    unfold sat in Es. cbn in Es, A0, A1 |- *. lra. }
  split; [exact Hz|]. split; [|lra].
  intros k Hk. pose proof (Hsat _ (Hdcr k Hk)) as Ek.
  unfold sat in Ek. cbn in Ek, Hz |- *. lra.
Qed.

(** X8.  In the simple Mission every cruise sub-point, and the last climb
    sub-point, is at or above 30,000 ft. *)
Theorem simple_altitude_floor :
  forall ext Nclimb Ncruise cs uconv rho,
    Simple.Mission_setup ext Nclimb Ncruise = inr cs ->
    sat_all uconv rho cs ->
    (forall k, k < Ncruise ->
       (30000 * uconv "ft"%string <= eval uconv rho (hft cruise k))%Q)
    /\ (30000 * uconv "ft"%string
        <= eval uconv rho (hft climb (Nclimb - 1)))%Q.
Proof.
  intros ext Nclimb Ncruise cs uconv rho H Hsat.
  destruct (simple_pos _ _ _ H) as [Hn Hm].
  destruct (simple_contains _ _ _ H)
    as (_ & _ & _ & _ & _ & _ & _ & Hcr & _).
  destruct (simple_contains_more _ _ _ H)
    as (_ & _ & _ & _ & _ & Hfloor & _).
  pose proof (Hsat _ Hfloor) as Ef. unfold sat in Ef. cbn in Ef.
  split.
  - intros k Hk. pose proof (Hsat _ (Hcr k Hk)) as Ek.
    unfold sat in Ek. cbn in Ek |- *. lra.
  - assert (Halt : forall c, In c cs -> altitude_constraint c = true ->
                     sat uconv rho c) by (intros c Hc _; now apply Hsat).
    pose proof (simple_final_climb_altitude _ _ _ _ _ H Halt) as E.
    cbn in E |- *. lra.
Qed.

(** X6.  At a feasible assignment of the two-climb Mission at which every
    [TCS] constraint binds, the second climb segment is evenly spaced from
    10,000 ft to the cruise altitude: its step equals
    [(CruiseAlt - 10000 ft) / Nclimb2] and its sub-point [i] is at
    [10000 ft + (i + 1)] steps. *)
Theorem twoclimb_tight_second_step :
  forall ext Nclimb1 Nclimb2 Ncruise cs uconv rho,
    TwoClimb.Mission_setup ext Nclimb1 Nclimb2 Ncruise = inr cs ->
    sat_all uconv rho cs -> tight_all uconv rho cs ->
    forall i, i < Nclimb2 ->
      (eval uconv rho (dhft climb2 i)
       == (eval uconv rho CruiseAlt - 10000 * uconv "ft"%string)
          / inject_Z (Z.of_nat Nclimb2))%Q
      /\ (eval uconv rho (hft climb2 i)
          == 10000 * uconv "ft"%string
             + inject_Z (Z.of_nat (S i)) * eval uconv rho (dhft climb2 i))%Q.
Proof.
  intros ext Nclimb1 Nclimb2 Ncruise cs uconv rho H Hsat Htight i Hi.
  destruct (twoclimb_pos _ _ _ _ H) as (Hn1 & Hn2 & Hm).
  destruct (twoclimb_contains _ _ _ _ H)
    as (_ & _ & _ & _ & _ & _ & _ & _ & _ & _ & Hcr & _ & Hstep2 & Hfirst2
        & Htop2 & _ & _ & _ & _ & Hd2' & _).
  pose proof (Hsat _ Hcr) as Ecr.
  pose proof (Hsat _ (Htop2 0 Hm)) as Etop.
  pose proof (Hsat _ (Hd2' i Hi)) as Ed.
  pose proof (Htight _ Hfirst2 eq_refl) as Efirst.
  unfold sat in Ecr, Etop, Ed. cbn in Ecr, Etop, Ed, Efirst |- *.
  set (d := rho (VarKey Mission "dhftholdcl2" None)) in *.
  set (c := (10000 * uconv "ft"%string)%Q) in *.
  assert (Hlin : forall j, j < Nclimb2 ->
            (rho (VarKey climb2 "hft" (Some j))
             == c + inject_Z (Z.of_nat (S j)) * d)%Q).
  { induction j as [|j IH]; intros Hj.
    - change (inject_Z (Z.of_nat 1)) with 1%Q. lra.
    - specialize (IH ltac:(lia)).
      pose proof (Htight _ (Hstep2 j Hj) eq_refl) as Es. cbn in Es.
      fold d in Es. rewrite inject_nat_succ. lra. }
  pose proof (Hlin i Hi) as Hi'.
  specialize (Hlin (Nclimb2 - 1) ltac:(lia)).
  replace (S (Nclimb2 - 1)) with Nclimb2 in Hlin by lia.
  assert (Hnpos : (0 < inject_Z (Z.of_nat Nclimb2))%Q)
    by now apply inject_nat_pos.
  assert (E : (rho (VarKey Mission "CruiseAlt" None) - c
               == d * inject_Z (Z.of_nat Nclimb2))%Q) by lra.
  split.
  - rewrite E, Qdiv_mult_l by lra. lra.
  - rewrite <- Ed. exact Hi'.
Qed.

(** X7.  In the simple Mission the ranges of the cruise sub-segments add up
    to exactly [ReqRng]. *)
Theorem simple_cruise_range_total :
  forall ext Nclimb Ncruise cs uconv rho,
    Simple.Mission_setup ext Nclimb Ncruise = inr cs ->
    sat_all uconv rho cs ->
    (Qsum (map (eval uconv rho) (vec cruise_cruiseP "Rng" Ncruise))
     == eval uconv rho ReqRng)%Q.
Proof.
  intros ext Nclimb Ncruise cs uconv rho H Hsat.
  destruct (simple_pos _ _ _ H) as [Hn Hm].
  destruct (simple_contains _ _ _ H)
    as (_ & _ & _ & _ & _ & _ & _ & _ & _ & _ & _ & _ & _ & Hrng & _).
  unfold vec. rewrite map_tab.
  rewrite Qsum_tab_const
    with (c := (eval uconv rho ReqRng / inject_Z (Z.of_nat Ncruise))%Q).
  - apply Qmult_div_r. pose proof (inject_nat_pos Hm). lra.
  - intros k Hk. exact (Hsat _ (Hrng k Hk)).
Qed.

(** The sum of the values of one segment's fuel burns. *)
Lemma burned_eq uconv rho seg n :
  (eval uconv rho (total seg "W_{burn}" n)
   == Qsum (map (eval uconv rho) (vec seg "W_{burn}" n)))%Q.
Proof. apply eval_total. Qed.

(** X9.  In both variants the total fuel weight is at least the sum of all
    fuel burns of all segments, and the total weight is at least the weights
    of the parts of the dry aircraft plus the total fuel weight. *)
Theorem fuel_accounting :
  (forall ext Nclimb Ncruise cs uconv rho,
     Simple.Mission_setup ext Nclimb Ncruise = inr cs ->
     sat_all uconv rho cs ->
     (Qsum (map (eval uconv rho) (vec climb "W_{burn}" Nclimb))
      + Qsum (map (eval uconv rho) (vec cruise "W_{burn}" Ncruise))
      <= eval uconv rho W_ftotal)%Q
     /\ (eval uconv rho dry_parts + eval uconv rho W_ftotal
         <= eval uconv rho W_total)%Q)
  /\
  (forall ext Nclimb1 Nclimb2 Ncruise cs uconv rho,
     TwoClimb.Mission_setup ext Nclimb1 Nclimb2 Ncruise = inr cs ->
     sat_all uconv rho cs ->
     (Qsum (map (eval uconv rho) (vec climb1 "W_{burn}" Nclimb1))
      + Qsum (map (eval uconv rho) (vec climb2 "W_{burn}" Nclimb2))
      + Qsum (map (eval uconv rho) (vec cruise "W_{burn}" Ncruise))
      <= eval uconv rho W_ftotal)%Q
     /\ (eval uconv rho dry_parts + eval uconv rho W_ftotal
         <= eval uconv rho W_total)%Q).
Proof.
  split.
  - intros ext Nclimb Ncruise cs uconv rho H Hsat.
    destruct (simple_contains_more _ _ _ H)
      as (Hdry & Htot & Hf & Hfc & Hfr & _).
    pose proof (Hsat _ Hdry) as E1. pose proof (Hsat _ Htot) as E2.
    pose proof (Hsat _ Hf) as E3. pose proof (Hsat _ Hfc) as E4.
    pose proof (Hsat _ Hfr) as E5.
    unfold sat in E1, E2, E3, E4, E5.
    cbn [op lhs rhs set_tight mk] in E1, E2, E3, E4, E5.
    rewrite burned_eq in E4, E5.
    change (eval uconv rho (Add W_dry W_ftotal))
      with (eval uconv rho W_dry + eval uconv rho W_ftotal)%Q in E2.
    change (eval uconv rho (Add W_fclimb W_fcruise))
      with (eval uconv rho W_fclimb + eval uconv rho W_fcruise)%Q in E3.
    split; lra.
  - intros ext Nclimb1 Nclimb2 Ncruise cs uconv rho H Hsat.
    destruct (twoclimb_contains_more _ _ _ _ H)
      as (Hdry & Htot & Hf & Hf1 & Hf2 & Hfr & _).
    pose proof (Hsat _ Hdry) as E1. pose proof (Hsat _ Htot) as E2.
    pose proof (Hsat _ Hf) as E3. pose proof (Hsat _ Hf1) as E4.
    pose proof (Hsat _ Hf2) as E5. pose proof (Hsat _ Hfr) as E6.
    unfold sat in E1, E2, E3, E4, E5, E6.
    cbn [op lhs rhs set_tight mk] in E1, E2, E3, E4, E5, E6.
    rewrite burned_eq in E4, E5, E6.
    change (eval uconv rho (Add W_dry W_ftotal))
      with (eval uconv rho W_dry + eval uconv rho W_ftotal)%Q in E2.
    change (eval uconv rho (Add (Add W_fclimb1 W_fclimb2) W_fcruise))
      with (eval uconv rho W_fclimb1 + eval uconv rho W_fclimb2
            + eval uconv rho W_fcruise)%Q in E3.
    split; lra.
Qed.

Section SegmentFacts.

Variables (uconv : string -> Q) (rho : var -> Q) (cs : list constraint).
Hypothesis feasible : sat_all uconv rho cs.
Variables (seg : model) (n : nat).
Hypothesis Hburn : forall i, i < n ->
  In (set_tight (mk GE (W_start seg i)
                   (Add (W_end seg i) (W_burn seg i)))) cs.
Hypothesis Hcont : forall i, S i < n ->
  In (mk EQ (W_start seg (S i)) (W_end seg i)) cs.

Lemma seg_burn i :
  i < n ->
  (eval uconv rho (W_end seg i) + eval uconv rho (W_burn seg i)
   <= eval uconv rho (W_start seg i))%Q.
Proof. intros Hi. exact (feasible _ (Hburn Hi)). Qed.

Lemma seg_cont i :
  S i < n ->
  (eval uconv rho (W_start seg (S i)) == eval uconv rho (W_end seg i))%Q.
Proof. intros Hi. exact (feasible _ (Hcont Hi)). Qed.

Lemma seg_total :
  0 < n ->
  (eval uconv rho (W_end seg (n - 1))
   + Qsum (map (eval uconv rho) (vec seg "W_{burn}" n))
   <= eval uconv rho (W_start seg 0))%Q.
Proof.
  intros Hn. unfold vec. rewrite map_tab.
  pose proof (@segment_telescope
                (fun i => eval uconv rho (W_start seg i))
                (fun i => eval uconv rho (W_end seg i))
                (fun i => eval uconv rho (W_burn seg i))
                n seg_burn seg_cont (n - 1) ltac:(lia)) as T.
  replace (S (n - 1)) with n in T by lia. exact T.
Qed.

Hypothesis Hnonneg : forall i, i < n ->
  (0 <= eval uconv rho (W_burn seg i))%Q.

Lemma seg_lower L i :
  (L <= eval uconv rho (W_end seg (n - 1)))%Q -> i < n ->
  (L <= eval uconv rho (W_end seg i))%Q
  /\ (eval uconv rho (W_end seg i) <= eval uconv rho (W_start seg i))%Q.
Proof.
  intros HL Hi.
  pose proof (@segment_end_ge_last
                (fun i => eval uconv rho (W_start seg i))
                (fun i => eval uconv rho (W_end seg i))
                (fun i => eval uconv rho (W_burn seg i))
                n seg_burn seg_cont Hnonneg i Hi) as E1.
  pose proof (@segment_end_le_start
                (fun i => eval uconv rho (W_start seg i))
                (fun i => eval uconv rho (W_end seg i))
                (fun i => eval uconv rho (W_burn seg i))
                n seg_burn Hnonneg i Hi) as E2.
  cbv beta in E1, E2. split; lra.
Qed.

Lemma seg_upper U i :
  (eval uconv rho (W_start seg 0) <= U)%Q -> i < n ->
  (eval uconv rho (W_start seg i) <= U)%Q.
Proof.
  intros HU Hi.
  pose proof (@segment_start_le_first
                (fun i => eval uconv rho (W_start seg i))
                (fun i => eval uconv rho (W_end seg i))
                (fun i => eval uconv rho (W_burn seg i))
                n seg_burn seg_cont Hnonneg i Hi) as E1.
  cbv beta in E1. lra.
Qed.

End SegmentFacts.

(** X10.  In both variants the weight chain by itself makes the total weight
    at least the dry weight plus the sum of all fuel burns. *)
Theorem weight_drop_covers_burn :
  (forall ext Nclimb Ncruise cs uconv rho,
     Simple.Mission_setup ext Nclimb Ncruise = inr cs ->
     sat_all uconv rho cs ->
     (eval uconv rho W_dry
      + (Qsum (map (eval uconv rho) (vec climb "W_{burn}" Nclimb))
         + Qsum (map (eval uconv rho) (vec cruise "W_{burn}" Ncruise)))
      <= eval uconv rho W_total)%Q)
  /\
  (forall ext Nclimb1 Nclimb2 Ncruise cs uconv rho,
     TwoClimb.Mission_setup ext Nclimb1 Nclimb2 Ncruise = inr cs ->
     sat_all uconv rho cs ->
     (eval uconv rho W_dry
      + (Qsum (map (eval uconv rho) (vec climb1 "W_{burn}" Nclimb1))
         + Qsum (map (eval uconv rho) (vec climb2 "W_{burn}" Nclimb2))
         + Qsum (map (eval uconv rho) (vec cruise "W_{burn}" Ncruise)))
      <= eval uconv rho W_total)%Q).
Proof.
  split.
  - intros ext Nclimb Ncruise cs uconv rho H Hsat.
    destruct (simple_pos _ _ _ H) as [Hn Hm].
    destruct (simple_contains _ _ _ H)
      as (Hfirst & Hchain & Hburn1 & Hburn2 & Hcont1 & Hcont2 & Hdry & _).
    pose proof (@seg_total uconv rho cs Hsat _ _ Hburn1 Hcont1 Hn) as T1.
    pose proof (@seg_total uconv rho cs Hsat _ _ Hburn2 Hcont2 Hm) as T2.
    pose proof (Hsat _ Hfirst) as E1. pose proof (Hsat _ Hchain) as E2.
    pose proof (Hsat _ Hdry) as E3.
    unfold sat in E1, E2, E3. cbn [op lhs rhs set_tight mk] in E1, E2, E3.
    lra.
  - intros ext Nclimb1 Nclimb2 Ncruise cs uconv rho H Hsat.
    destruct (twoclimb_pos _ _ _ _ H) as (Hn1 & Hn2 & Hm).
    destruct (twoclimb_contains _ _ _ _ H)
      as (Hfirst & Hchain1 & Hchain2 & Hburn1 & Hburn2 & Hburn3
          & Hcont1 & Hcont2 & Hcont3 & Hdry & _).
    pose proof (@seg_total uconv rho cs Hsat _ _ Hburn1 Hcont1 Hn1) as T1.
    pose proof (@seg_total uconv rho cs Hsat _ _ Hburn2 Hcont2 Hn2) as T2.
    pose proof (@seg_total uconv rho cs Hsat _ _ Hburn3 Hcont3 Hm) as T3.
    pose proof (Hsat _ Hfirst) as E1. pose proof (Hsat _ Hchain1) as E2.
    pose proof (Hsat _ Hchain2) as E3. pose proof (Hsat _ Hdry) as E4.
    unfold sat in E1, E2, E3, E4.
    cbn [op lhs rhs set_tight mk] in E1, E2, E3, E4.
    lra.
Qed.

(** X11.  In both variants, when no fuel burn is negative, at every
    sub-point of every segment the dry weight is at most the end weight, the
    end weight at most the start weight, and the start weight at most the
    total weight. *)
Theorem weights_between_dry_and_total :
  (forall ext Nclimb Ncruise cs uconv rho,
     Simple.Mission_setup ext Nclimb Ncruise = inr cs ->
     sat_all uconv rho cs ->
     (forall i, i < Nclimb -> (0 <= eval uconv rho (W_burn climb i))%Q) ->
     (forall i, i < Ncruise -> (0 <= eval uconv rho (W_burn cruise i))%Q) ->
     (forall i, i < Nclimb -> weights_in_range uconv rho climb i)
     /\ (forall i, i < Ncruise -> weights_in_range uconv rho cruise i))
  /\
  (forall ext Nclimb1 Nclimb2 Ncruise cs uconv rho,
     TwoClimb.Mission_setup ext Nclimb1 Nclimb2 Ncruise = inr cs ->
     sat_all uconv rho cs ->
     (forall i, i < Nclimb1 -> (0 <= eval uconv rho (W_burn climb1 i))%Q) ->
     (forall i, i < Nclimb2 -> (0 <= eval uconv rho (W_burn climb2 i))%Q) ->
     (forall i, i < Ncruise -> (0 <= eval uconv rho (W_burn cruise i))%Q) ->
     (forall i, i < Nclimb1 -> weights_in_range uconv rho climb1 i)
     /\ (forall i, i < Nclimb2 -> weights_in_range uconv rho climb2 i)
     /\ (forall i, i < Ncruise -> weights_in_range uconv rho cruise i)).
Proof.
  split.
  - intros ext Nclimb Ncruise cs uconv rho H Hsat Hb1 Hb2.
    destruct (simple_pos _ _ _ H) as [Hn Hm].
    destruct (simple_contains _ _ _ H)
      as (Hfirst & Hchain & Hburn1 & Hburn2 & Hcont1 & Hcont2 & Hdry & _).
    pose proof (Hsat _ Hfirst) as E1. pose proof (Hsat _ Hchain) as E2.
    pose proof (Hsat _ Hdry) as E3.
    unfold sat in E1, E2, E3. cbn [op lhs rhs set_tight mk] in E1, E2, E3.
    (* lower bounds, from the last segment backwards *)
    assert (Lr : forall j, j < Ncruise ->
              (eval uconv rho W_dry <= eval uconv rho (W_end cruise j))%Q
              /\ (eval uconv rho (W_end cruise j)
                  <= eval uconv rho (W_start cruise j))%Q).
    { intros j Hj. now apply (@seg_lower uconv rho cs Hsat _ _ Hburn2 Hcont2 Hb2). }
    assert (Lc : forall j, j < Nclimb ->
              (eval uconv rho W_dry <= eval uconv rho (W_end climb j))%Q
              /\ (eval uconv rho (W_end climb j)
                  <= eval uconv rho (W_start climb j))%Q).
    { intros j Hj. apply (@seg_lower uconv rho cs Hsat _ _ Hburn1 Hcont1 Hb1); [|assumption].
      destruct (Lr 0 Hm). lra. }
    (* upper bounds, from the first segment forwards *)
    assert (Uc : forall j, j < Nclimb ->
              (eval uconv rho (W_start climb j) <= eval uconv rho W_total)%Q).
    { intros j Hj. apply (@seg_upper uconv rho cs Hsat _ _ Hburn1 Hcont1 Hb1); [lra | assumption]. }
    assert (Ur : forall j, j < Ncruise ->
              (eval uconv rho (W_start cruise j) <= eval uconv rho W_total)%Q).
    { intros j Hj. apply (@seg_upper uconv rho cs Hsat _ _ Hburn2 Hcont2 Hb2); [|assumption].
      destruct (Lc (Nclimb - 1) ltac:(lia)).
      pose proof (Uc (Nclimb - 1) ltac:(lia)). lra. }
    unfold weights_in_range. split; intros i Hi.
    + destruct (Lc i Hi). pose proof (Uc i Hi). tauto.
    + destruct (Lr i Hi). pose proof (Ur i Hi). tauto.
  - intros ext Nclimb1 Nclimb2 Ncruise cs uconv rho H Hsat Hb1 Hb2 Hb3.
    destruct (twoclimb_pos _ _ _ _ H) as (Hn1 & Hn2 & Hm).
    destruct (twoclimb_contains _ _ _ _ H)
      as (Hfirst & Hchain1 & Hchain2 & Hburn1 & Hburn2 & Hburn3
          & Hcont1 & Hcont2 & Hcont3 & Hdry & _).
    pose proof (Hsat _ Hfirst) as E1. pose proof (Hsat _ Hchain1) as E2.
    pose proof (Hsat _ Hchain2) as E3. pose proof (Hsat _ Hdry) as E4.
    unfold sat in E1, E2, E3, E4.
    cbn [op lhs rhs set_tight mk] in E1, E2, E3, E4.
    assert (Lr : forall j, j < Ncruise ->
              (eval uconv rho W_dry <= eval uconv rho (W_end cruise j))%Q
              /\ (eval uconv rho (W_end cruise j)
                  <= eval uconv rho (W_start cruise j))%Q).
    { intros j Hj. now apply (@seg_lower uconv rho cs Hsat _ _ Hburn3 Hcont3 Hb3). }
    assert (L2 : forall j, j < Nclimb2 ->
              (eval uconv rho W_dry <= eval uconv rho (W_end climb2 j))%Q
              /\ (eval uconv rho (W_end climb2 j)
                  <= eval uconv rho (W_start climb2 j))%Q).
    { intros j Hj. apply (@seg_lower uconv rho cs Hsat _ _ Hburn2 Hcont2 Hb2); [|assumption].
      destruct (Lr 0 Hm). lra. }
    assert (L1 : forall j, j < Nclimb1 ->
              (eval uconv rho W_dry <= eval uconv rho (W_end climb1 j))%Q
              /\ (eval uconv rho (W_end climb1 j)
                  <= eval uconv rho (W_start climb1 j))%Q).
    { intros j Hj. apply (@seg_lower uconv rho cs Hsat _ _ Hburn1 Hcont1 Hb1); [|assumption].
      destruct (L2 0 Hn2). lra. }
    assert (U1 : forall j, j < Nclimb1 ->
              (eval uconv rho (W_start climb1 j) <= eval uconv rho W_total)%Q).
    { intros j Hj. apply (@seg_upper uconv rho cs Hsat _ _ Hburn1 Hcont1 Hb1); [lra | assumption]. }
    assert (U2 : forall j, j < Nclimb2 ->
              (eval uconv rho (W_start climb2 j) <= eval uconv rho W_total)%Q).
    { intros j Hj. apply (@seg_upper uconv rho cs Hsat _ _ Hburn2 Hcont2 Hb2); [|assumption].
      destruct (L1 (Nclimb1 - 1) ltac:(lia)).
      pose proof (U1 (Nclimb1 - 1) ltac:(lia)). lra. }
    assert (Ur : forall j, j < Ncruise ->
              (eval uconv rho (W_start cruise j) <= eval uconv rho W_total)%Q).
    { intros j Hj. apply (@seg_upper uconv rho cs Hsat _ _ Hburn3 Hcont3 Hb3); [|assumption].
      destruct (L2 (Nclimb2 - 1) ltac:(lia)).
      pose proof (U2 (Nclimb2 - 1) ltac:(lia)). lra. }
    unfold weights_in_range. split; [|split]; intros i Hi.
    + destruct (L1 i Hi). pose proof (U1 i Hi). tauto.
    + destruct (L2 i Hi). pose proof (U2 i Hi). tauto.
    + destruct (Lr i Hi). pose proof (Ur i Hi). tauto.
Qed.

Lemma link_in_simple_links cl cr es Nclimb Ncruise key :
  In key statevarkeys ->
  (forall i, i < Nclimb ->
     In (link cl es 0 key i) (simple_links cl cr es Nclimb Ncruise))
  /\ (forall i, i < Ncruise ->
        In (link cr es Nclimb key i) (simple_links cl cr es Nclimb Ncruise)).
Proof.
  intros Hk. unfold simple_links. split; intros i Hi; apply in_flat_map;
    exists key; (split; [assumption|]); apply in_or_app.
  - left. apply In_tab. eauto.
  - right. apply In_tab. eauto.
Qed.

Lemma link_in_twoclimb_links c1 c2 cr es Nclimb1 Nclimb2 Ncruise key :
  In key statevarkeys ->
  (forall i, i < Nclimb1 ->
     In (link c1 es 0 key i)
        (twoclimb_links c1 c2 cr es Nclimb1 Nclimb2 Ncruise))
  /\ (forall i, i < Nclimb2 ->
        In (link c2 es Nclimb1 key i)
           (twoclimb_links c1 c2 cr es Nclimb1 Nclimb2 Ncruise))
  /\ (forall i, i < Ncruise ->
        In (link cr es (Nclimb1 + Nclimb2) key i)
           (twoclimb_links c1 c2 cr es Nclimb1 Nclimb2 Ncruise)).
Proof.
  intros Hk. unfold twoclimb_links. repeat split; intros i Hi;
    apply in_flat_map; exists key; (split; [assumption|]); apply in_or_app.
  - left. apply In_tab. eauto.
  - right. apply in_or_app. left. apply In_tab. eauto.
  - right. apply in_or_app. right. apply In_tab. eauto.
Qed.

(** X12.  The engine slices of [Mission.setup] and the offsets of
    [StateLinking] agree: for local index [i] of a segment that starts at
    mission index [offset], the fuel-burn equation uses [TSFC] and [F] at
    [offset + i], the Mach equation uses [M_2] at [offset + i], and every
    tracked flight-state field of the segment is linked to the shared
    sequence at [offset + i]. *)
Theorem engine_index_alignment :
  (forall ext Nclimb Ncruise cs,
     Simple.Mission_setup ext Nclimb Ncruise = inr cs ->
     (forall i, i < Nclimb ->
        In (mk EQ (W_burn climb i) (burn_rate climb 0 i)) cs
        /\ In (mk EQ (M_2 i) (Mach climb i)) cs
        /\ forall key, In key statevarkeys ->
             In (link climb_state enginestate 0 key i) cs)
     /\ (forall i, i < Ncruise ->
           In (mk EQ (W_burn cruise i) (burn_rate cruise Nclimb i)) cs
           /\ In (mk EQ (M_2 (Nclimb + i)) (Mach cruise i)) cs
           /\ forall key, In key statevarkeys ->
                In (link cruise_state enginestate Nclimb key i) cs))
  /\
  (forall ext Nclimb1 Nclimb2 Ncruise cs,
     TwoClimb.Mission_setup ext Nclimb1 Nclimb2 Ncruise = inr cs ->
     (forall i, i < Nclimb1 ->
        In (mk EQ (W_burn climb1 i) (burn_rate climb1 0 i)) cs
        /\ In (mk EQ (M_2 i) (Mach climb1 i)) cs
        /\ forall key, In key statevarkeys ->
             In (link climb1_state enginestate 0 key i) cs)
     /\ (forall i, i < Nclimb2 ->
           In (mk EQ (W_burn climb2 i) (burn_rate climb2 Nclimb1 i)) cs
           /\ In (mk EQ (M_2 (Nclimb1 + i)) (Mach climb2 i)) cs
           /\ forall key, In key statevarkeys ->
                In (link climb2_state enginestate Nclimb1 key i) cs)
     /\ (forall i, i < Ncruise ->
           In (mk EQ (W_burn cruise i)
                 (burn_rate cruise (Nclimb1 + Nclimb2) i)) cs
           /\ In (mk EQ (M_2 (Nclimb1 + Nclimb2 + i)) (Mach cruise i)) cs
           /\ forall key, In key statevarkeys ->
                In (link cruise_state enginestate (Nclimb1 + Nclimb2) key i)
                   cs)).
Proof.
  split.
  - intros ext Nclimb Ncruise cs H.
    pose proof (simple_mission_links _ _ _ H) as Hl.
    destruct (simple_contains_more _ _ _ H)
      as (_ & _ & _ & _ & _ & _ & Hb1 & Hb2 & Hm1 & Hm2 & _).
    split; intros i Hi; (repeat split; auto); intros key Hk; apply Hl;
      now apply link_in_simple_links.
  - intros ext Nclimb1 Nclimb2 Ncruise cs H.
    pose proof (twoclimb_mission_links _ _ _ _ H) as Hl.
    destruct (twoclimb_contains_more _ _ _ _ H)
      as (_ & _ & _ & _ & _ & _ & Hb1 & Hb2 & Hb3 & Hm1 & Hm2 & Hm3 & _).
    repeat split; auto; intros key Hk; apply Hl;
      now apply link_in_twoclimb_links.
Qed.

(** X13.  In the simple Mission the cruise fuel burn equals
    [TSFC * thr * D] (thrust equals drag in cruise), and the Breguet factor
    [z_{bre}] is at least that burn divided by the average weight. *)
Theorem simple_cruise_burn_from_drag :
  forall ext Nclimb Ncruise cs uconv rho,
    Simple.Mission_setup ext Nclimb Ncruise = inr cs ->
    sat_all uconv rho cs ->
    forall i, i < Ncruise ->
      (eval uconv rho (W_burn cruise i)
       == eval uconv rho (TSFC (Nclimb + i)) * eval uconv rho (thr cruise i)
          * eval uconv rho (drag cruise i))%Q
      /\ (eval uconv rho (W_burn cruise i) / eval uconv rho (W_avg cruise i)
          <= eval uconv rho (z_bre i))%Q.
Proof.
  intros ext Nclimb Ncruise cs uconv rho H Hsat i Hi.
  destruct (simple_contains_more _ _ _ H)
    as (_ & _ & _ & _ & _ & _ & _ & Hb & _ & _ & Hd & Hz).
  pose proof (Hsat _ (Hb i Hi)) as Eb.
  pose proof (Hsat _ (Hd i Hi)) as Ed.
  pose proof (Hsat _ (Hz i Hi)) as Ez.
  unfold sat in Eb, Ed, Ez. cbn in Eb, Ed, Ez |- *.
  assert (E : (rho (VarKey cruise "W_{burn}" (Some i))
               == rho (VarKey ac_engine "TSFC" (Some (Nclimb + i)%nat))
                  * rho (VarKey cruise "thr" (Some i))
                  * rho (VarKey cruise "D" (Some i)))%Q).
  { rewrite Eb, Ed. lra. }
  split; [exact E|]. now rewrite E.
Qed.

(** ** Checked instances *)

Lemma tight_all_forallb uconv rho cs :
  forallb (tightb uconv rho) cs = true -> tight_all uconv rho cs.
Proof.
  intros H c Hc Ht. rewrite forallb_forall in H. specialize (H c Hc).
  unfold tightb in H. rewrite Ht in H. now apply Qeq_bool_iff.
Qed.

Lemma simple_climb_altitudes_pinned_witness :
  (eval unit_one (rho_example 2) (hft climb 1)
   == inject_Z (Z.of_nat 2)
      * (eval unit_one (rho_example 2) CruiseAlt / inject_Z (Z.of_nat 2)))%Q.
Proof.
  apply (@simple_climb_altitudes_pinned no_submodels 2 2 _ unit_one
           (rho_example 2) eq_refl).
  - intros c Hc _. revert c Hc. apply sat_all_forallb. vm_compute. reflexivity.
  - lia.
Defined.

Lemma twoclimb_first_climb_altitudes_pinned_witness :
  (eval unit_one (rho_two 10000) (hft climb1 0)
   == inject_Z (Z.of_nat 1)
      * (10000 * unit_one "ft"%string / inject_Z (Z.of_nat 2)))%Q
  /\ (eval unit_one (rho_two 10000) (hft climb1 1)
      == inject_Z (Z.of_nat 2)
         * (10000 * unit_one "ft"%string / inject_Z (Z.of_nat 2)))%Q.
Proof.
  assert (Hsat : exists cs, TwoClimb.Mission_setup no_submodels 2 2 2 = inr cs
                            /\ sat_all unit_one (rho_two 10000) cs).
  { eexists. split; [reflexivity|].
    apply sat_all_forallb. vm_compute. reflexivity. }
  destruct Hsat as (cs & H & Hsat).
  pose proof (@twoclimb_first_climb_altitudes_pinned no_submodels 2 2 2 cs
                unit_one (rho_two 10000) H Hsat) as P.
  split; apply P; lia.
Defined.

Lemma twoclimb_cruise_altitude_constant_witness :
  (eval unit_one (rho_two 10000) (hft cruise 1)
   == eval unit_one (rho_two 10000) CruiseAlt)%Q
  /\ (eval unit_one (rho_two 10000) dhftholdcr == 0)%Q.
Proof.
  assert (Hsat : exists cs, TwoClimb.Mission_setup no_submodels 2 2 2 = inr cs
                            /\ sat_all unit_one (rho_two 10000) cs).
  { eexists. split; [reflexivity|].
    apply sat_all_forallb. vm_compute. reflexivity. }
  destruct Hsat as (cs & H & Hsat).
  destruct (@twoclimb_cruise_altitude_constant no_submodels 2 2 2 cs unit_one
              (rho_two 10000) H Hsat) as [Hall Hzero].
  split.
  - apply Hall. lia.
  - apply Hzero. lia.
Defined.

Lemma twoclimb_tight_second_step_witness :
  (eval unit_one (rho_two 10000) (dhft climb2 1)
   == (eval unit_one (rho_two 10000) CruiseAlt - 10000 * unit_one "ft"%string)
      / inject_Z (Z.of_nat 2))%Q
  /\ (eval unit_one (rho_two 10000) (hft climb2 1)
      == 10000 * unit_one "ft"%string
         + inject_Z (Z.of_nat 2) * eval unit_one (rho_two 10000) (dhft climb2 1))%Q.
Proof.
  apply (@twoclimb_tight_second_step no_submodels 2 2 2 _ unit_one
           (rho_two 10000) eq_refl).
  - apply sat_all_forallb. vm_compute. reflexivity.
  - apply tight_all_forallb. vm_compute. reflexivity.
  - lia.
Defined.

Lemma simple_cruise_range_total_witness :
  (Qsum (map (eval unit_one (rho_example 2)) (vec cruise_cruiseP "Rng" 2))
   == eval unit_one (rho_example 2) ReqRng)%Q.
Proof.
  apply (@simple_cruise_range_total no_submodels 2 2 _ unit_one
           (rho_example 2) eq_refl).
  apply sat_all_forallb. vm_compute. reflexivity.
Defined.

Lemma simple_altitude_floor_witness :
  (30000 * unit_one "ft"%string
   <= eval unit_one (rho_example 2) (hft climb (2 - 1)))%Q.
Proof.
  apply (@simple_altitude_floor no_submodels 2 2 _ unit_one
           (rho_example 2) eq_refl).
  apply sat_all_forallb. vm_compute. reflexivity.
Defined.

Lemma fuel_accounting_witness :
  ((Qsum (map (eval unit_one (rho_example 2)) (vec climb "W_{burn}" 2))
    + Qsum (map (eval unit_one (rho_example 2)) (vec cruise "W_{burn}" 2))
    <= eval unit_one (rho_example 2) W_ftotal)%Q
   /\ (eval unit_one (rho_example 2) dry_parts
       + eval unit_one (rho_example 2) W_ftotal
       <= eval unit_one (rho_example 2) W_total)%Q)
  /\
  ((Qsum (map (eval unit_one (rho_two 10000)) (vec climb1 "W_{burn}" 2))
    + Qsum (map (eval unit_one (rho_two 10000)) (vec climb2 "W_{burn}" 2))
    + Qsum (map (eval unit_one (rho_two 10000)) (vec cruise "W_{burn}" 2))
    <= eval unit_one (rho_two 10000) W_ftotal)%Q
   /\ (eval unit_one (rho_two 10000) dry_parts
       + eval unit_one (rho_two 10000) W_ftotal
       <= eval unit_one (rho_two 10000) W_total)%Q).
Proof.
  split.
  - apply (proj1 fuel_accounting no_submodels 2 2 _ unit_one
             (rho_example 2) eq_refl).
    apply sat_all_forallb. vm_compute. reflexivity.
  - apply (proj2 fuel_accounting no_submodels 2 2 2 _ unit_one
             (rho_two 10000) eq_refl).
    apply sat_all_forallb. vm_compute. reflexivity.
Defined.

Lemma weight_drop_covers_burn_witness :
  (eval unit_one (rho_example 2) W_dry
   + (Qsum (map (eval unit_one (rho_example 2)) (vec climb "W_{burn}" 2))
      + Qsum (map (eval unit_one (rho_example 2)) (vec cruise "W_{burn}" 2)))
   <= eval unit_one (rho_example 2) W_total)%Q
  /\ (eval unit_one (rho_two 10000) W_dry
      + (Qsum (map (eval unit_one (rho_two 10000)) (vec climb1 "W_{burn}" 2))
         + Qsum (map (eval unit_one (rho_two 10000)) (vec climb2 "W_{burn}" 2))
         + Qsum (map (eval unit_one (rho_two 10000)) (vec cruise "W_{burn}" 2)))
      <= eval unit_one (rho_two 10000) W_total)%Q.
Proof.
  split.
  - apply (proj1 weight_drop_covers_burn no_submodels 2 2 _ unit_one
             (rho_example 2) eq_refl).
    apply sat_all_forallb. vm_compute. reflexivity.
  - apply (proj2 weight_drop_covers_burn no_submodels 2 2 2 _ unit_one
             (rho_two 10000) eq_refl).
    apply sat_all_forallb. vm_compute. reflexivity.
Defined.

Lemma weights_between_dry_and_total_witness :
  weights_in_range unit_one (rho_example 2) cruise 1
  /\ weights_in_range unit_one (rho_two 10000) climb1 1
  /\ weights_in_range unit_one (rho_two 10000) climb2 0
  /\ weights_in_range unit_one (rho_two 10000) cruise 1.
Proof.
  split.
  - assert (R : (forall i, i < 2 ->
                   weights_in_range unit_one (rho_example 2) climb i)
                /\ (forall i, i < 2 ->
                      weights_in_range unit_one (rho_example 2) cruise i)).
    { apply (proj1 weights_between_dry_and_total no_submodels 2 2 _ unit_one
               (rho_example 2) eq_refl).
      + apply sat_all_forallb. vm_compute. reflexivity.
      + intros i Hi. vm_compute. discriminate.
      + intros i Hi. vm_compute. discriminate. }
    apply (proj2 R). lia.
  - assert (R : (forall i, i < 2 ->
                   weights_in_range unit_one (rho_two 10000) climb1 i)
                /\ (forall i, i < 2 ->
                      weights_in_range unit_one (rho_two 10000) climb2 i)
                /\ (forall i, i < 2 ->
                      weights_in_range unit_one (rho_two 10000) cruise i)).
    { apply (proj2 weights_between_dry_and_total no_submodels 2 2 2 _ unit_one
               (rho_two 10000) eq_refl).
      + apply sat_all_forallb. vm_compute. reflexivity.
      + intros i Hi. vm_compute. discriminate.
      + intros i Hi. vm_compute. discriminate.
      + intros i Hi. vm_compute. discriminate. }
    destruct R as (R1 & R2 & R3).
    split; [apply R1; lia|]. split; [apply R2; lia | apply R3; lia].
Defined.

Lemma engine_index_alignment_witness :
  exists cs,
    Simple.Mission_setup no_submodels 2 2 = inr cs
    /\ In (mk EQ (W_burn cruise 1) (burn_rate cruise 2 1)) cs
    /\ In (link cruise_state enginestate 2 "V" 1) cs.
Proof.
  eexists. split; [reflexivity|].
  destruct (proj1 engine_index_alignment no_submodels 2 2 _ eq_refl)
    as [_ Hcr].
  destruct (Hcr 1 ltac:(lia)) as (Hb & _ & Hl).
  split; [exact Hb|]. apply Hl.
  unfold statevarkeys. do 13 right. left. reflexivity.
Defined.

Lemma simple_cruise_burn_from_drag_witness :
  (eval unit_one (rho_example 2) (W_burn cruise 0)
   == eval unit_one (rho_example 2) (TSFC (2 + 0))
      * eval unit_one (rho_example 2) (thr cruise 0)
      * eval unit_one (rho_example 2) (drag cruise 0))%Q.
Proof.
  apply (@simple_cruise_burn_from_drag no_submodels 2 2 _ unit_one
           (rho_example 2) eq_refl).
  - apply sat_all_forallb. vm_compute. reflexivity.
  - lia.
Defined.
